(** * Neural compressor reference model: fixed-point primitives, filter,
      spike detector, packet encoder and sample-file format.

    Shallow embedding of [scripts/reference_model.py] and of the sample-file
    writer of [scripts/process_eeg.py].

    Numeric conventions.
    - Python integers are unbounded: they are [Z], and the bit operations of
      the source ([&], [>>]) are [Z.land] and [Z.shiftr].
    - NumPy fixed-width integers ([np.int64], [np.int32]) are [Z] with the
      wrap-around written out ([wrap64], [wrap32]).
    - Python floats are modelled by exact rationals in canonical form ([Qc]).
      Every float the concrete evaluations below go through is a dyadic
      rational with fewer than 53 significant bits, on which binary64
      arithmetic is exact; general statements about float code are
      statements about this exact-arithmetic model, and say so where they
      bound the floats on which the program computes the same value.  The
      filter is also given over a float type whose operations are left
      open, and the detector and the encoder over an abstract sample type,
      so what is proved of those does not depend on the float semantics at
      all. *)

From Stdlib Require Import ZArith QArith Qcanon Qround Qabs Qcabs Lia Lqa.
From Stdlib Require Import Bool List Ascii String.
From stdpp Require Import list.
Import ListNotations.

Local Open Scope Z_scope.

(** ** NumPy fixed-width integers *)

Definition INT64_MIN : Z := - 2 ^ 63.
Definition INT64_MAX : Z := 2 ^ 63 - 1.

(** Two's-complement reinterpretation of the low [w] bits of [x]. *)
Definition wrap (w : Z) (x : Z) : Z :=
  (x + 2 ^ (w - 1)) mod 2 ^ w - 2 ^ (w - 1).

Definition wrap64 : Z -> Z := wrap 64.
Definition wrap32 : Z -> Z := wrap 32.

(** [np.int64(a)] on a Python integer: the value itself when it fits,
    [OverflowError] (here [None]) otherwise. *)
Definition np_int64 (a : Z) : option Z :=
  if (INT64_MIN <=? a) && (a <=? INT64_MAX) then Some a else None.

(** [np.int32(x)] on a NumPy [int64] scalar: a C cast, which keeps the low
    32 bits. *)
Definition np_int32_of_int64 (x : Z) : Z := wrap32 x.

(** An integer as a float. *)
Definition Z2Qc (z : Z) : Qc := Q2Qc (inject_Z z).

(** ** class FixedPointQ16_16 *)

Module FixedPointQ16_16.

(** [np.round]: round to the nearest integer, ties to even. *)
Definition np_round (x : Qc) : Z :=
  let f := Qfloor x in
  match (x - Z2Qc f ?= Q2Qc (1 # 2))%Qc with
  | Lt => f
  | Gt => f + 1
  | Eq => if Z.even f then f else f + 1
  end.

(** [to_fixed(value) = int(np.round(value * (1 << 16)))].  On a finite
    float below [2^1008] in magnitude the product is exact in binary64
    (a scaling by a power of two) and so is the rounding; beyond, and on
    [inf] and [nan], the program raises, which this total function does not
    show. *)
Definition to_fixed (value : Qc) : Z :=
  np_round (value * Z2Qc (Z.shiftl 1 16))%Qc.

(** [to_float(value)]: when bit 31 of [value] is set, subtract [2^32];
    then divide by [1 << 16] (true division).  The quotient is exact here;
    the program returns the same float as long as the dividend has no more
    than 53 significant bits, rounds it beyond, and raises on an integer
    too large for a float. *)
Definition to_float (value : Z) : Qc :=
  let value :=
    if Z.eqb (Z.land value 0x80000000) 0 then value
    else value - 0x100000000 in
  (Z2Qc value / Z2Qc (Z.shiftl 1 16))%Qc.

(** [mult(a, b)]: both operands become [np.int64]; the product wraps in
    64 bits, is shifted right arithmetically by 16, masked with
    [0xFFFFFFFF] and cast to [np.int32]. *)
Definition mult (a b : Z) : option Z :=
  match np_int64 a, np_int64 b with
  | Some a, Some b =>
      let prod := Z.shiftr (wrap64 (a * b)) 16 in
      Some (np_int32_of_int64 (Z.land prod 0xFFFFFFFF))
  | _, _ => None
  end.

End FixedPointQ16_16.

Import FixedPointQ16_16.

(** ** Spec-side arithmetic, for comparison with the source *)

(** The multiplier as the specification words it: the exact product of the
    operands, shifted right arithmetically by 16, truncated to its low 32
    bits and reinterpreted as signed. *)
Definition spec_mul (a b : Z) : Z :=
  let low := (a * b / 2 ^ 16) mod 2 ^ 32 in
  if low <? 2 ^ 31 then low else low - 2 ^ 32.

(** ** class NeuralCompressorReference: constants of [__init__] *)

Definition b_coeff : list Z :=
  [0x00000D6B; 0x00000000; - 0x0000A5A6; 0x00000000; 0x00000D6B].

Definition a_coeff : list Z :=
  [0x00010000; - 0x000270A4; 0x0002B852; - 0x0001B333; 0x00003D71].

Definition b_float : list Qc := map to_float b_coeff.
Definition a_float : list Qc := map to_float a_coeff.

Definition spike_threshold : Qc := to_float 0x00050000.
Definition window_size : nat := 32.
Definition refractory_period : Z := 8.

Definition rle_threshold : Qc := to_float 0x00001999.
Definition max_run_length : Z := 255.

(** The recurrence of the specification,
    [y[n] = sum_{i=0..4} b[i]*x[n-i] - sum_{i=1..4} a[i]*y[n-i]],
    over an arbitrary arithmetic: [mul] forms the products, [add] and [sub]
    accumulate them, [truncate] is applied to the final result.  [xh] and
    [yh] hold the last four inputs and outputs, most recent first, and
    start at zero. *)
Section Recurrence.

Variable T : Type.
Variables (mul add sub : T -> T -> T) (zero : T) (truncate : T -> T).

Definition dot (c h : list T) : T :=
  fold_right add zero (map (fun ch => mul (fst ch) (snd ch)) (combine c h)).

Definition recurrence_sample (b a xh yh : list T) (x : T) : T :=
  truncate (sub (dot b (x :: xh)) (dot (tl a) yh)).

Fixpoint recurrence_from (b a xh yh : list T) (xs : list T) : list T :=
  match xs with
  | [] => []
  | x :: xs' =>
      let y := recurrence_sample b a xh yh x in
      y :: recurrence_from b a (firstn 4 (x :: xh)) (firstn 4 (y :: yh)) xs'
  end.

Definition recurrence (b a : list T) (xs : list T) : list T :=
  recurrence_from b a (repeat zero 4) (repeat zero 4) xs.

End Recurrence.

Arguments dot {T}.
Arguments recurrence_sample {T}.
Arguments recurrence_from {T}.
Arguments recurrence {T}.

(** The recurrence in Q16.16 as the specification words it: products
    through the multiplier, exact accumulation (nine 32-bit terms fit 64
    bits), the result truncated to 32 bits. *)
Definition spec_filter (xs : list Z) : list Z :=
  recurrence spec_mul Z.add Z.sub 0 wrap32 b_coeff a_coeff xs.

(** ** [filter_signal]: [scipy.signal.lfilter] *)

(** [lfilter(b, a, x)] for one-dimensional input and no initial conditions,
    as SciPy documents it: the coefficients are divided by [a[0]], and the
    samples go through a transposed direct-form-II structure,
    [y[m] = b[0]*x[m] + z[0]], [z[i] = b[i+1]*x[m] + z[i+1] - a[i+1]*y[m]],
    the last delay being [b[N]*x[m] - a[N]*y[m]]; the delay line [z] starts
    at zero.  One delay-line update, for the coefficients from index 1 on: *)
Fixpoint df2t_update (b a z : list Qc) (x y : Qc) : list Qc :=
  match b, a, z with
  | bi :: b', ai :: a', _ :: z' =>
      let carry := match z' with [] => 0%Qc | zn :: _ => zn end in
      (bi * x + carry - ai * y)%Qc :: df2t_update b' a' z' x y
  | _, _, _ => []
  end.

Fixpoint df2t_run (b a z : list Qc) (xs : list Qc) : list Qc :=
  match xs with
  | [] => []
  | x :: xs' =>
      let y := (hd 0%Qc b * x + hd 0%Qc z)%Qc in
      y :: df2t_run b a (df2t_update (tl b) (tl a) z x y) xs'
  end.

Definition lfilter (b a : list Qc) (x : list Qc) : list Qc :=
  let a0 := hd 0%Qc a in
  let b' := map (fun c => (c / a0)%Qc) b in
  let a' := map (fun c => (c / a0)%Qc) a in
  df2t_run b' a' (repeat 0%Qc (Nat.max (length a) (length b) - 1)) x.

(** [filter_signal(data) = signal.lfilter(b_float, a_float, data)], in
    exact arithmetic: the program rounds every product and sum to binary64,
    so its output is this one up to rounding, and equal to it where every
    intermediate value is representable. *)
Definition filter_signal (data : list Qc) : list Qc :=
  lfilter b_float a_float data.

(** ** [filter_signal] over arbitrary float operations *)

(** The filter once more, with the float type and its operations left
    open: nothing is assumed of them, so what is proved of this version
    holds of binary64 with its rounding as well as of exact arithmetic.
    The order of the operations is the one of SciPy's loop body,
    [y = z[0] + b[0]*x], [z[i] = z[i+1] + x*b[i+1] - y*a[i+1]] and, for the
    last delay, [x*b[N] - y*a[N]], after both coefficient vectors have been
    divided by [a[0]]; it is written for coefficient vectors of equal
    length, as the source has them. *)
Section FloatOps.

Variable F : Type.
Variables (fadd fsub fmul fdiv : F -> F -> F) (fzero : F).
(** True division of two integers, [value / (1 << 16)]. *)
Variable int_truediv : Z -> Z -> F.

Definition to_float_ops (value : Z) : F :=
  let value :=
    if Z.eqb (Z.land value 0x80000000) 0 then value
    else value - 0x100000000 in
  int_truediv value (Z.shiftl 1 16).

(** The delay line after one more sample; [cs] pairs [b[i]] with [a[i]]
    from index 1 on. *)
Fixpoint delay_update (cs : list (F * F)) (z : list F) (x y : F) : list F :=
  match cs, z with
  | (bi, ai) :: cs', _ :: z' =>
      match z' with
      | [] => [fsub (fmul x bi) (fmul y ai)]
      | zn :: _ =>
          fsub (fadd zn (fmul x bi)) (fmul y ai) :: delay_update cs' z' x y
      end
  | _, _ => []
  end.

Fixpoint lfilter_run (b0 : F) (cs : list (F * F)) (z : list F) (xs : list F)
  : list F :=
  match xs with
  | [] => []
  | x :: xs' =>
      let y :=
        match z with
        | [] => fmul x b0
        | z0 :: _ => fadd z0 (fmul b0 x)
        end in
      y :: lfilter_run b0 cs (delay_update cs z x y) xs'
  end.

Definition lfilter_ops (b a : list F) (x : list F) : list F :=
  let a0 := hd fzero a in
  let b' := map (fun c => fdiv c a0) b in
  let a' := map (fun c => fdiv c a0) a in
  let cs := combine (tl b') (tl a') in
  lfilter_run (hd fzero b') cs (repeat fzero (length cs)) x.

Definition b_float_ops : list F := map to_float_ops b_coeff.
Definition a_float_ops : list F := map to_float_ops a_coeff.

Definition filter_signal_ops (data : list F) : list F :=
  lfilter_ops b_float_ops a_float_ops data.

(** The recurrence of the specification over the same operations.  [xh]
    and [yh] hold all earlier inputs and outputs, most recent first; the
    sum over the taps from index 1 on is formed from the oldest tap to the
    most recent one, and taps that reach before the first sample
    contribute the initial zero. *)
Fixpoint delay_of_history (cs : list (F * F)) (xh yh : list F) : F :=
  match cs, xh, yh with
  | (bk, ak) :: cs', x :: xh', y :: yh' =>
      match cs' with
      | [] => fsub (fmul x bk) (fmul y ak)
      | _ :: _ =>
          fsub (fadd (delay_of_history cs' xh' yh') (fmul x bk)) (fmul y ak)
      end
  | _, _, _ => fzero
  end.

Fixpoint recurrence_run (b0 : F) (cs : list (F * F)) (xh yh : list F)
    (xs : list F) : list F :=
  match xs with
  | [] => []
  | x :: xs' =>
      let y :=
        match cs with
        | [] => fmul x b0
        | _ :: _ => fadd (delay_of_history cs xh yh) (fmul b0 x)
        end in
      y :: recurrence_run b0 cs (x :: xh) (y :: yh) xs'
  end.

(** The float coefficients after the division by [a[0]]. *)
Definition b_normalised : list F :=
  map (fun c => fdiv c (hd fzero a_float_ops)) b_float_ops.
Definition a_normalised : list F :=
  map (fun c => fdiv c (hd fzero a_float_ops)) a_float_ops.

Definition float_recurrence_ops (data : list F) : list F :=
  recurrence_run (hd fzero b_normalised)
    (combine (tl b_normalised) (tl a_normalised)) [] [] data.

(** The delay line that a history stands for. *)
Fixpoint delays (cs : list (F * F)) (xh yh : list F) : list F :=
  match cs with
  | [] => []
  | _ :: cs' => delay_of_history cs xh yh :: delays cs' xh yh
  end.

End FloatOps.

Arguments to_float_ops {F}.
Arguments delay_update {F}.
Arguments lfilter_run {F}.
Arguments lfilter_ops {F}.
Arguments b_float_ops {F}.
Arguments a_float_ops {F}.
Arguments filter_signal_ops {F}.
Arguments delay_of_history {F}.
Arguments recurrence_run {F}.
Arguments b_normalised {F}.
Arguments a_normalised {F}.
Arguments float_recurrence_ops {F}.
Arguments delays {F}.

(** ** [detect_spikes] and [compress_signal], over any sample type *)

Inductive Packet (sample : Type) : Type :=
| Delta (delta : sample)
| RunLength (count : Z) (value : sample)
| Spike (value : sample)
| Literal (value : sample).

Arguments Delta {sample} delta.
Arguments RunLength {sample} count value.
Arguments Spike {sample} value.
Arguments Literal {sample} value.

(** The source keeps two lists in lockstep, [compressed] (the payloads) and
    [packet_types] (0 = delta, 1 = RLE, 2 = spike, 3 = literal); a [Packet]
    is one entry of both. *)
Definition packet_type {sample : Type} (p : Packet sample) : Z :=
  match p with
  | Delta _ => 0
  | RunLength _ _ => 1
  | Spike _ => 2
  | Literal _ => 3
  end.

Record detector_state : Type := {
  spikes : list bool;
  refractory_counter : Z
}.

Record encoder_state (sample : Type) : Type := {
  prev_value : sample;
  run_count : Z;
  run_value : sample;
  in_run : bool
}.

Arguments prev_value {sample} e.
Arguments run_count {sample} e.
Arguments run_value {sample} e.
Arguments in_run {sample} e.

Section Pipeline.

Variable sample : Type.
(** [abs(v) > self.spike_threshold] *)
Variable exceeds_spike_threshold : sample -> bool.
(** [abs(delta) < self.rle_threshold] *)
Variable below_rle_threshold : sample -> bool.
(** [value - prev_value] and the initial [0] *)
Variable sub : sample -> sample -> sample.
Variable zero : sample.

(** One iteration of the detector loop at index [i].  The loop only
    visits indices below [len(data)], so the lookup never fails. *)
Definition detect_step (data : list sample) (st : detector_state) (i : nat)
  : detector_state :=
  if 0 <? refractory_counter st then
    {| spikes := spikes st;
       refractory_counter := refractory_counter st - 1 |}
  else
    match data !! i with
    | Some v =>
        if exceeds_spike_threshold v then
          {| spikes := <[i := true]> (spikes st);
             refractory_counter := refractory_period |}
        else st
    | None => st
    end.

(** [spikes = np.zeros(len(data))], then
    [for i in range(self.window_size, len(data))]. *)
Definition detect_spikes (data : list sample) : list bool :=
  spikes
    (fold_left (detect_step data)
       (seq window_size (length data - window_size))
       {| spikes := repeat false (length data); refractory_counter := 0 |}).

(** [if in_run and run_count > 0]: emit the pending run and close it;
    [set_prev] tells whether this site also sets [prev_value = run_value]
    (the delta branch does, the spike branch does not). *)
Definition emit_pending (set_prev : bool) (st : encoder_state sample)
  : encoder_state sample * list (Packet sample) :=
  if in_run st && (0 <? run_count st) then
    ({| prev_value := if set_prev then run_value st else prev_value st;
        run_count := 0;
        run_value := run_value st;
        in_run := false |},
     [RunLength (run_count st) (run_value st)])
  else (st, []).

(** The body of the encoder loop for one [(value, spikes[i])] pair. *)
Definition compress_step (st : encoder_state sample) (value : sample)
    (is_spike : bool) : encoder_state sample * list (Packet sample) :=
  if is_spike then
    let '(st1, out) := emit_pending false st in
    ({| prev_value := value;
        run_count := run_count st1;
        run_value := run_value st1;
        in_run := in_run st1 |},
     out ++ [Spike value])
  else
    let delta := sub value (prev_value st) in
    if below_rle_threshold delta then
      let st1 :=
        if negb (in_run st) then
          {| prev_value := prev_value st;
             run_count := 1;
             run_value := value;
             in_run := true |}
        else
          {| prev_value := prev_value st;
             run_count := run_count st + 1;
             run_value := run_value st;
             in_run := in_run st |} in
      if max_run_length <=? run_count st1 then
        ({| prev_value := run_value st1;
            run_count := 0;
            run_value := run_value st1;
            in_run := false |},
         [RunLength (run_count st1) (run_value st1)])
      else (st1, [])
    else
      let '(st1, out) := emit_pending true st in
      ({| prev_value := value;
          run_count := run_count st1;
          run_value := run_value st1;
          in_run := in_run st1 |},
       out ++ [Delta delta]).

(** [for i, value in enumerate(data)]: [spikes[i]] raises [IndexError]
    (here [None]) when the flag sequence is shorter than the data. *)
Fixpoint compress_loop (flags : list bool) (i : nat) (data : list sample)
    (st : encoder_state sample) (out : list (Packet sample))
  : option (encoder_state sample * list (Packet sample)) :=
  match data with
  | [] => Some (st, out)
  | value :: rest =>
      match flags !! i with
      | None => None
      | Some is_spike =>
          let '(st', emitted) := compress_step st value is_spike in
          compress_loop flags (S i) rest st' (out ++ emitted)
      end
  end.

Definition encoder_init : encoder_state sample :=
  {| prev_value := zero; run_count := 0; run_value := zero; in_run := false |}.

(** The block after the loop: "emit final run if any".  It appends the
    packet and leaves the local variables as they are. *)
Definition final_run (st : encoder_state sample) : list (Packet sample) :=
  if in_run st && (0 <? run_count st) then
    [RunLength (run_count st) (run_value st)]
  else [].

Definition compress_signal (data : list sample) (flags : list bool)
  : option (list (Packet sample)) :=
  match compress_loop flags 0 data encoder_init [] with
  | Some (st, out) => Some (out ++ final_run st)
  | None => None
  end.

(** The local variables [prev_value], [run_count], [run_value] and [in_run]
    as they stand at the [return] statement, with the list returned: the
    final block assigns none of them. *)
Definition compress_signal_locals (data : list sample) (flags : list bool)
  : option (encoder_state sample * list (Packet sample)) :=
  match compress_loop flags 0 data encoder_init [] with
  | Some (st, out) => Some (st, out ++ final_run st)
  | None => None
  end.

(** *** Views used by the statements below *)

(** The detector loop as a single pass over the samples from index
    [window_size] on, with the refractory counter as its only state. *)
Fixpoint detect_from (rc : Z) (data : list sample) : list bool :=
  match data with
  | [] => []
  | v :: rest =>
      if 0 <? rc then false :: detect_from (rc - 1) rest
      else if exceeds_spike_threshold v
           then true :: detect_from refractory_period rest
           else false :: detect_from rc rest
  end.

Definition is_spike_packet (p : Packet sample) : bool :=
  match p with Spike _ => true | _ => false end.

Definition run_length_ok (p : Packet sample) : Prop :=
  match p with
  | RunLength count _ => 1 <= count <= 255
  | _ => True
  end.

(** Number of input samples a packet stands for. *)
Definition samples_covered (p : Packet sample) : Z :=
  match p with
  | RunLength count _ => count
  | _ => 1
  end.

Definition total_covered (ps : list (Packet sample)) : Z :=
  fold_right Z.add 0 (map samples_covered ps).

Definition count_spike_packets (ps : list (Packet sample)) : nat :=
  length (List.filter is_spike_packet ps).

(** Samples taken into the open run and not yet emitted. *)
Definition pending_samples (st : encoder_state sample) : Z :=
  if in_run st then run_count st else 0.

(** Between two iterations an open run holds 1 to 254 samples and a
    closed one none. *)
Definition encoder_inv (st : encoder_state sample) : Prop :=
  if in_run st then 1 <= run_count st <= max_run_length - 1
  else run_count st = 0.

(** The encoder loop as a single pass over samples paired with flags. *)
Fixpoint encode_all (st : encoder_state sample) (data : list sample)
    (flags : list bool) : encoder_state sample * list (Packet sample) :=
  match data, flags with
  | value :: data', is_spike :: flags' =>
      let '(st1, out1) := compress_step st value is_spike in
      let '(st2, out2) := encode_all st1 data' flags' in
      (st2, out1 ++ out2)
  | _, _ => (st, [])
  end.

End Pipeline.

(** [np.sum(spikes)]: the number of true flags. *)
Definition count_true (flags : list bool) : nat :=
  length (List.filter (fun f : bool => f) flags).

Arguments detect_step {sample}.
Arguments detect_spikes {sample}.
Arguments detect_from {sample}.
Arguments emit_pending {sample}.
Arguments compress_step {sample}.
Arguments compress_loop {sample}.
Arguments encoder_init {sample}.
Arguments final_run {sample}.
Arguments compress_signal {sample}.
Arguments compress_signal_locals {sample}.
Arguments is_spike_packet {sample}.
Arguments run_length_ok {sample}.
Arguments samples_covered {sample}.
Arguments total_covered {sample}.
Arguments count_spike_packets {sample}.
Arguments pending_samples {sample}.
Arguments encoder_inv {sample}.
Arguments encode_all {sample}.

(** ** The pipeline on floats: [process] *)

Definition Qcltb (x y : Qc) : bool :=
  match (x ?= y)%Qc with Lt => true | _ => false end.

Definition exceeds_spike (v : Qc) : bool := Qcltb spike_threshold (Qcabs v).
Definition below_rle (delta : Qc) : bool := Qcltb (Qcabs delta) rle_threshold.

Definition detect_spikes_float : list Qc -> list bool :=
  detect_spikes exceeds_spike.

Definition compress_signal_float
  : list Qc -> list bool -> option (list (Packet Qc)) :=
  compress_signal below_rle Qcminus 0%Qc.

Record Stats : Type := {
  input_samples : Z;
  output_packets : Z;
  compression_ratio : Qc;
  spike_count : Z
}.

Record Results : Type := {
  filtered : list Qc;
  spike_flags : list bool;
  compressed : list (Packet Qc);
  stats : Stats
}.

Definition process (input_data : list Qc) : option Results :=
  let filtered := filter_signal input_data in
  let spikes := detect_spikes_float filtered in
  match compress_signal_float filtered spikes with
  | None => None
  | Some compressed =>
      let n_in := Z.of_nat (length input_data) in
      let n_out := Z.of_nat (length compressed) in
      Some {| filtered := filtered;
              spike_flags := spikes;
              compressed := compressed;
              stats :=
                {| input_samples := n_in;
                   output_packets := n_out;
                   compression_ratio :=
                     if 0 <? n_in
                     then (Z2Qc n_out / Z2Qc n_in
                           * Z2Qc 100)%Qc
                     else 0%Qc;
                   spike_count := Z.of_nat (count_true spikes) |} |}
  end.

(** ** The sample file: [write_mem_file] and [load_eeg_mem_file] *)

Local Open Scope string_scope.

Definition newline : ascii := Ascii.ascii_of_nat 10.
Definition carriage_return : ascii := Ascii.ascii_of_nat 13.

Definition hex_digit_upper (d : Z) : ascii :=
  match d with
  | 0 => "0" | 1 => "1" | 2 => "2" | 3 => "3" | 4 => "4" | 5 => "5"
  | 6 => "6" | 7 => "7" | 8 => "8" | 9 => "9" | 10 => "A" | 11 => "B"
  | 12 => "C" | 13 => "D" | 14 => "E" | _ => "F"
  end%char%Z.

(** The digits of a non-negative integer in base 16, most significant
    first, in front of [acc]. *)
Fixpoint hex_upper_aux (fuel : nat) (n : Z) (acc : string) : string :=
  match fuel with
  | O => acc
  | S fuel' =>
      let acc' := String (hex_digit_upper (n mod 16)) acc in
      if (n / 16 =? 0)%Z then acc' else hex_upper_aux fuel' (n / 16) acc'
  end.

Definition hex_upper (n : Z) : string :=
  hex_upper_aux (S (Z.to_nat (Z.log2 n))) n "".

Fixpoint zeros (k : nat) : string :=
  match k with
  | O => ""
  | S k' => String "0" (zeros k')
  end.

(** The format [{n:08X}] for [n >= 0]: upper-case hexadecimal, padded with
    zeros on the left to at least 8 characters. *)
Definition format_08X (n : Z) : string :=
  let s := hex_upper n in
  zeros (8 - String.length s) ++ s.

(** [write_mem_file]: the text written to the file, one line per sample. *)
Fixpoint write_mem_file (data : list Z) : string :=
  match data with
  | [] => ""
  | sample :: rest =>
      let hex_val := format_08X (Z.land sample 0xFFFFFFFF) in
      hex_val ++ String newline (write_mem_file rest)
  end.

(** Text-mode reading translates ["\r\n"] and a lone ["\r"] to ["\n"]. *)
Fixpoint universal_newlines (s : string) : string :=
  match s with
  | "" => ""
  | String c rest =>
      if Ascii.eqb c carriage_return then
        match rest with
        | String c' rest' =>
            if Ascii.eqb c' newline
            then String newline (universal_newlines rest')
            else String newline (universal_newlines rest)
        | "" => String newline ""
        end
      else String c (universal_newlines rest)
  end.

(** [for line in f]: the lines of the text, each with its terminator. *)
Fixpoint lines_from (cur : string) (s : string) : list string :=
  match s with
  | "" => match cur with "" => [] | _ => [cur] end
  | String c rest =>
      if Ascii.eqb c newline
      then (cur ++ String c "") :: lines_from "" rest
      else lines_from (cur ++ String c "") rest
  end.

Definition file_lines (content : string) : list string :=
  lines_from "" (universal_newlines content).

(** White space removed by [str.strip()], within ASCII: the text of a
    sample file is taken to be ASCII, and the white space and digits that
    Python knows beyond it are not modelled. *)
Definition is_space (c : ascii) : bool :=
  let n := Z.of_nat (Ascii.nat_of_ascii c) in
  (((9 <=? n) && (n <=? 13)) || ((28 <=? n) && (n <=? 32)))%Z.

Fixpoint lstrip (s : string) : string :=
  match s with
  | "" => ""
  | String c rest => if is_space c then lstrip rest else s
  end.

Fixpoint rstrip (s : string) : string :=
  match s with
  | "" => ""
  | String c rest =>
      match rstrip rest with
      | "" => if is_space c then "" else String c ""
      | r => String c r
      end
  end.

Definition strip (s : string) : string := rstrip (lstrip s).

Definition hex_digit_value (c : ascii) : option Z :=
  let n := Z.of_nat (Ascii.nat_of_ascii c) in
  if ((48 <=? n) && (n <=? 57))%Z then Some (n - 48)
  else if ((65 <=? n) && (n <=? 70))%Z then Some (n - 55)
  else if ((97 <=? n) && (n <=? 102))%Z then Some (n - 87)
  else None.

(** The digit part of an [int(s, 16)] literal: hexadecimal digits of either
    case, single underscores allowed between them.  [pending] tells that the
    previous character was an underscore. *)
Fixpoint int16_digits (s : string) (acc : Z) (pending : bool) : option Z :=
  match s with
  | "" => if pending then None else Some acc
  | String c rest =>
      if Ascii.eqb c "_" then
        if pending then None else int16_digits rest acc true
      else
        match hex_digit_value c with
        | Some d => int16_digits rest (acc * 16 + d) false
        | None => None
        end
  end.

(** An unsigned literal: an optional [0x] / [0X] prefix (after which one
    underscore may come), then at least one digit. *)
Definition int16_unsigned (s : string) : option Z :=
  let body :=
    match s with
    | String c (String x rest) =>
        if Ascii.eqb c "0" && (Ascii.eqb x "x" || Ascii.eqb x "X") then
          match rest with
          | String u rest' => if Ascii.eqb u "_" then rest' else rest
          | "" => rest
          end
        else s
    | _ => s
    end in
  match body with
  | "" => None
  | String c _ => if Ascii.eqb c "_" then None else int16_digits body 0 false
  end.

(** [int(s, 16)] on a stripped string, with its optional sign: [None]
    stands for [ValueError]. *)
Definition int16 (s : string) : option Z :=
  match s with
  | String c rest =>
      if Ascii.eqb c "+" then int16_unsigned rest
      else if Ascii.eqb c "-" then option_map Z.opp (int16_unsigned rest)
      else int16_unsigned s
  | "" => None
  end.

(** The reading loop of [load_eeg_mem_file]: the list [data] of signed raw
    values it builds before the conversion to floats. *)
Fixpoint load_lines (ls : list string) (data : list Z) : option (list Z) :=
  match ls with
  | [] => Some data
  | line :: rest =>
      let line := strip line in
      match line with
      | "" => load_lines rest data
      | _ =>
          match int16 line with
          | None => None
          | Some value =>
              let value :=
                if Z.eqb (Z.land value 0x80000000) 0 then value
                else value - 0x100000000 in
              load_lines rest (data ++ [value])
          end
      end
  end.

Definition load_eeg_mem_data (content : string) : option (list Z) :=
  load_lines (file_lines content) [].

(** [load_eeg_mem_file]: the floats returned, [to_float] of each entry of
    [data]. *)
Definition load_eeg_mem_file (content : string) : option (list Qc) :=
  option_map (map to_float) (load_eeg_mem_data content).

(** ** Further views of the packet stream *)

(** What the encoder may emit: a delta packet only for a delta that is not
    below the run-length threshold, and no literal packet at all. *)
Definition packet_justified {sample : Type} (below : sample -> bool)
    (p : Packet sample) : Prop :=
  match p with
  | Delta d => below d = false
  | Literal _ => False
  | _ => True
  end.

(** The payloads of the spike packets, in order. *)
Definition spike_values {sample : Type} (ps : list (Packet sample)) : list sample :=
  flat_map (fun p => match p with Spike v => [v] | _ => [] end) ps.

(** The samples whose flag is set, in order. *)
Fixpoint flagged_samples {sample : Type} (data : list sample) (flags : list bool)
  : list sample :=
  match data, flags with
  | v :: data', f :: flags' =>
      if f then v :: flagged_samples data' flags' else flagged_samples data' flags'
  | _, _ => []
  end.

(** ** [to_fixed_point] of [process_eeg.py] *)

(** [1 << n] on Python integers: [ValueError] (here [None]) for a negative
    shift count. *)
Definition py_one_shiftl (n : Z) : option Z :=
  if (n <? 0)%Z then None else Some (Z.shiftl 1 n).

(** [astype(np.int64)] on an integer-valued float: the integer itself when
    it fits; outside the [int64] range NumPy returns an integer that it
    leaves unspecified, which the model leaves undefined ([None]). *)
Definition float_to_int64 (r : Z) : option Z :=
  if ((INT64_MIN <=? r) && (r <=? INT64_MAX))%Z then Some r else None.

(** [np.clip(v, lo, hi)], that is [minimum(maximum(v, lo), hi)]. *)
Definition np_clip (lo hi v : Z) : Z := Z.min (Z.max v lo) hi.

(** [np.round(data * scale_factor).astype(np.int64)], element by element. *)
Fixpoint round_to_int64 (scale_factor : Z) (data : list Qc) : option (list Z) :=
  match data with
  | [] => Some []
  | x :: rest =>
      match float_to_int64 (np_round (x * Z2Qc scale_factor)%Qc),
            round_to_int64 scale_factor rest with
      | Some v, Some vs => Some (v :: vs)
      | _, _ => None
      end
  end.

(** [to_fixed_point(data, integer_bits, fractional_bits)], as the list of
    the values of the array returned.  [None] stands for the [ValueError]
    of a negative shift count, for the [OverflowError] of a scale factor
    too large for a float ([1 << 1024] and beyond), and for a float outside
    the [int64] range in the cast, where the program still returns an array
    but NumPy does not say which integer the sample becomes.  The product
    and the rounding are exact here; they are exact in binary64 too as long
    as the scale factor fits [int64] and the scaled sample is finite,
    scaling by a power of two being exact.  Clip bounds beyond [int64]
    leave every value as it is. *)
Definition to_fixed_point (data : list Qc) (integer_bits fractional_bits : Z)
  : option (list Z) :=
  match py_one_shiftl fractional_bits,
        py_one_shiftl (integer_bits + fractional_bits - 1) with
  | Some scale_factor, Some half =>
      let max_val := (half - 1)%Z in
      let min_val := (- half)%Z in
      if (1024 <=? fractional_bits)%Z then None
      else
        match round_to_int64 scale_factor data with
        | Some fixed_data => Some (map (np_clip min_val max_val) fixed_data)
        | None => None
        end
  | _, _ => None
  end.

(** ** [load_eeg_mem_file] of [enhance_analysis.py] *)

Module Enhance.

(** The loop over [f.readlines()]: blank lines, lines that start with
    [//] or [@] and lines on which [int(line, 16)] raises [ValueError] are
    skipped; a value of at least [0x80000000] is reduced by [2^32]. *)
Fixpoint load_lines (ls : list string) (data : list Z) : list Z :=
  match ls with
  | [] => data
  | line :: rest =>
      let line := strip line in
      if negb (String.eqb line "")
         && negb (String.prefix "//" line) && negb (String.prefix "@" line)
      then
        match int16 line with
        | Some val =>
            let val :=
              if (0x80000000 <=? val)%Z then (val - 0x100000000)%Z else val in
            load_lines rest (data ++ [val])
        | None => load_lines rest data
        end
      else load_lines rest data
  end.

(** [data_float = [val / 65536.0 for val in data]], as an exact quotient;
    the [OverflowError] of an integer too large for a float is not
    modelled. *)
Definition load_eeg_mem_file (content : string) : list Qc :=
  map (fun val => (Z2Qc val / Z2Qc 65536)%Qc)
    (load_lines (file_lines content) []).

End Enhance.

(** *** Views used by the statements below *)

(** The characters [0-9A-F]. *)
Definition is_hex_upper_digit (c : ascii) : bool :=
  let n := Z.of_nat (Ascii.nat_of_ascii c) in
  (((48 <=? n) && (n <=? 57)) || ((65 <=? n) && (n <=? 70)))%Z.

Fixpoint all_hex_upper (s : string) : Prop :=
  match s with
  | "" => True
  | String c rest => is_hex_upper_digit c = true /\ all_hex_upper rest
  end.

(** The value of a string of hexadecimal digits read after [acc]. *)
Fixpoint hex_val (s : string) (acc : Z) : Z :=
  match s with
  | "" => acc
  | String c rest =>
      hex_val rest (acc * 16 + match hex_digit_value c with Some d => d | None => 0 end)
  end.

(** No carriage return in the text. *)
Fixpoint no_cr (s : string) : Prop :=
  match s with
  | "" => True
  | String c rest => Ascii.eqb c carriage_return = false /\ no_cr rest
  end.

Definition in_int32 (v : Z) : Prop := (- 2 ^ 31 <= v < 2 ^ 31)%Z.

(** The line that [write_mem_file] writes for one sample. *)
Definition written_line (sample : Z) : string :=
  format_08X (Z.land sample 0xFFFFFFFF) ++ String newline "".

(** The 32-bit pattern of a float taken back to Q16.16. *)
Definition pattern_of_float (f : Qc) : Z := Z.land (to_fixed f) 0xFFFFFFFF.

Local Close Scope string_scope.

(** * Properties *)

Example to_float_one : to_float 0x00010000 = 1%Qc.
Proof. apply Qc_is_canon. reflexivity. Qed.

Example to_fixed_half : to_fixed (Q2Qc (1 # 2)) = 32768.
Proof. reflexivity. Qed.

Example mult_example : mult 0x00018000 0x00020000 = Some 0x00030000.
Proof. reflexivity. Qed.

Example write_example :
  write_mem_file [1; -1; 0x12345678; - 2 ^ 31] =
  ("00000001" ++ String newline ("FFFFFFFF" ++ String newline
    ("12345678" ++ String newline ("80000000" ++ String newline ""))))%string.
Proof. vm_compute. reflexivity. Qed.

Example load_example :
  load_eeg_mem_data (write_mem_file [1; -1; 0x12345678; - 2 ^ 31]) =
  Some [1; -1; 0x12345678; - 2 ^ 31].
Proof. vm_compute. reflexivity. Qed.

Example process_zero_example :
  option_map (fun r => map packet_type (compressed r)) (process (repeat 0%Qc 40)) =
  Some [1].
Proof. vm_compute. reflexivity. Qed.

(** ** Fixed-width integer facts *)

Lemma wrap64_small (x : Z) : - 2 ^ 63 <= x < 2 ^ 63 -> wrap64 x = x.
Proof.
  intros Hx. unfold wrap64, wrap.
  change (64 - 1) with 63.
  rewrite Z.mod_small; lia.
Qed.

Lemma wrap32_low (m : Z) :
  0 <= m < 2 ^ 32 -> wrap32 m = if m <? 2 ^ 31 then m else m - 2 ^ 32.
Proof.
  intros Hm. unfold wrap32, wrap. change (32 - 1) with 31.
  destruct (Z.ltb_spec m (2 ^ 31)) as [Hlt | Hge].
  - rewrite Z.mod_small; lia.
  - replace (m + 2 ^ 31) with (m - 2 ^ 31 + 1 * 2 ^ 32) by lia.
    rewrite Z_mod_plus_full, Z.mod_small; lia.
Qed.

Lemma land_low32 (x : Z) : Z.land x 0xFFFFFFFF = x mod 2 ^ 32.
Proof. change 0xFFFFFFFF with (Z.ones 32). apply Z.land_ones. lia. Qed.

Lemma np_int64_in_range (a : Z) :
  - 2 ^ 63 <= a < 2 ^ 63 -> np_int64 a = Some a.
Proof.
  intros Ha. unfold np_int64, INT64_MIN, INT64_MAX.
  destruct (Z.leb_spec (- 2 ^ 63) a); [| lia].
  destruct (Z.leb_spec a (2 ^ 63 - 1)); [reflexivity | lia].
Qed.

(** C2.  For all 32-bit signed [a] and [b], [mult a b] returns the signed
    reinterpretation of the low 32 bits of the exact product shifted right
    arithmetically by 16: it wraps around and never saturates. *)
Theorem mult_truncates (a b : Z) :
  - 2 ^ 31 <= a < 2 ^ 31 ->
  - 2 ^ 31 <= b < 2 ^ 31 ->
  mult a b = Some (spec_mul a b).
Proof.
  intros Ha Hb. unfold mult, spec_mul.
  rewrite !np_int64_in_range by lia.
  assert (Hprod : - 2 ^ 63 <= a * b < 2 ^ 63) by nia.
  rewrite (wrap64_small _ Hprod).
  rewrite Z.shiftr_div_pow2 by lia.
  unfold np_int32_of_int64. rewrite land_low32.
  rewrite wrap32_low by (apply Z.mod_pos_bound; lia).
  reflexivity.
Qed.

Lemma mult_truncates_witness :
  mult (2 ^ 31 - 1) (2 ^ 31 - 1) = Some (spec_mul (2 ^ 31 - 1) (2 ^ 31 - 1)).
Proof. apply mult_truncates; lia. Defined.

(** The largest operands: the shifted product is [0x3FFF_FFFF_0000], of
    which only the low 32 bits survive. *)
Example mult_overflow_wraps : mult (2 ^ 31 - 1) (2 ^ 31 - 1) = Some (- 65536).
Proof. reflexivity. Qed.

Example mult_negative : mult (- 0x000270A4) 0x00000D6B = Some (- 8382).
Proof. reflexivity. Qed.

(** ** Integers as floats *)

Lemma Z2Qc_this (z : Z) : (this (Z2Qc z) == inject_Z z)%Q.
Proof. unfold Z2Qc. simpl. apply Qred_correct. Qed.

Lemma Z2Qc_sub (a b : Z) : Z2Qc (a - b) = (Z2Qc a - Z2Qc b)%Qc.
Proof.
  apply Qc_is_canon. unfold Qcminus, Qcplus, Qcopp, Z2Qc, Q2Qc. simpl.
  rewrite !Qred_correct. unfold Qeq, Qplus, Qopp, inject_Z. simpl. lia.
Qed.

Lemma Z2Qc_inj (a b : Z) : Z2Qc a = Z2Qc b -> a = b.
Proof.
  intros H. apply (f_equal this) in H.
  assert (Hq : (inject_Z a == inject_Z b)%Q).
  { rewrite <- (Z2Qc_this a), <- (Z2Qc_this b), H. reflexivity. }
  unfold Qeq, inject_Z in Hq. simpl in Hq. lia.
Qed.

Lemma scale_nonzero : Z2Qc (Z.shiftl 1 16) <> 0%Qc.
Proof. intros H. apply (Z2Qc_inj _ 0) in H. discriminate H. Qed.

Lemma np_round_integer (s : Z) : np_round (Z2Qc s) = s.
Proof.
  unfold np_round.
  assert (Hf : Qfloor (Z2Qc s) = s).
  { rewrite (Qfloor_comp _ _ (Z2Qc_this s)). apply Qfloor_Z. }
  rewrite Hf.
  replace (Z2Qc s - Z2Qc s)%Qc with 0%Qc by ring.
  reflexivity.
Qed.

Lemma to_fixed_scaled (s : Z) :
  to_fixed (Z2Qc s / Z2Qc (Z.shiftl 1 16))%Qc = s.
Proof.
  unfold to_fixed.
  replace (Z2Qc s / Z2Qc (Z.shiftl 1 16) * Z2Qc (Z.shiftl 1 16))%Qc
    with (Z2Qc s) by (field; apply scale_nonzero).
  apply np_round_integer.
Qed.

(** ** The sign test of [to_float] *)

Lemma sign_test_bit31 (v : Z) :
  Z.eqb (Z.land v 0x80000000) 0 = negb (Z.testbit v 31).
Proof.
  change 0x80000000 with (2 ^ 31).
  destruct (Z.testbit v 31) eqn:E; simpl.
  - apply Z.eqb_neq. intros H.
    assert (Hb : Z.testbit (Z.land v (2 ^ 31)) 31 = true).
    { rewrite Z.land_spec, E, Z.pow2_bits_true by lia. reflexivity. }
    rewrite H, Z.bits_0 in Hb. discriminate Hb.
  - apply Z.eqb_eq. apply Z.bits_inj'. intros n Hn.
    rewrite Z.land_spec, Z.bits_0.
    destruct (Z.eq_dec n 31) as [-> | Hne].
    + rewrite E. reflexivity.
    + rewrite (Z.pow2_bits_false 31 n) by lia. apply andb_false_r.
Qed.

Lemma testbit31_negative (v : Z) : - 2 ^ 31 <= v < 0 -> Z.testbit v 31 = true.
Proof.
  intros Hv. apply Z.testbit_true; [lia |].
  replace (v / 2 ^ 31) with (-1); [reflexivity |].
  apply Z.div_unique with (r := v + 2 ^ 31); lia.
Qed.

Lemma testbit31_low (v : Z) : 0 <= v < 2 ^ 31 -> Z.testbit v 31 = false.
Proof.
  intros Hv. apply Z.testbit_false; [lia |].
  rewrite Z.div_small by lia. reflexivity.
Qed.

Lemma testbit31_high (v : Z) : 2 ^ 31 <= v < 2 ^ 32 -> Z.testbit v 31 = true.
Proof.
  intros Hv. apply Z.testbit_true; [lia |].
  replace (v / 2 ^ 31) with 1; [reflexivity |].
  apply Z.div_unique with (r := v - 2 ^ 31); lia.
Qed.

Lemma to_float_negative_raw (v : Z) :
  - 2 ^ 31 <= v < 0 ->
  to_float v = (Z2Qc (v - 2 ^ 32) / Z2Qc (Z.shiftl 1 16))%Qc.
Proof.
  intros Hv. unfold to_float.
  rewrite sign_test_bit31, testbit31_negative by assumption. reflexivity.
Qed.

Lemma to_float_pattern (v : Z) :
  0 <= v < 2 ^ 32 ->
  to_float v = (Z2Qc (wrap32 v) / Z2Qc (Z.shiftl 1 16))%Qc.
Proof.
  intros Hv. unfold to_float. rewrite sign_test_bit31, wrap32_low by assumption.
  destruct (Z.ltb_spec v (2 ^ 31)).
  - rewrite testbit31_low by lia. reflexivity.
  - rewrite testbit31_high by lia. reflexivity.
Qed.

(** ** Round trip through [to_float] and [to_fixed] *)

(** C4.  The round trip is not the identity on the Q16.16 range: on a
    negative raw value passed as a signed integer ([-1], or the coefficient
    [-0xA5A6] that [__init__] converts) [to_float] subtracts [2^32] from a
    value that is already signed, and the round trip returns the value less
    [2^32]; the unsigned pattern of the same value ([0xFFFFFFFF]) comes
    back as the signed value [-1]. *)
Lemma to_fixed_to_float_not_identity :
  ~ (forall v, - 2 ^ 31 <= v < 2 ^ 31 -> to_fixed (to_float v) = v) /\
  to_fixed (to_float (-1)) = -1 - 2 ^ 32 /\
  to_fixed (to_float (- 0x0000A5A6)) = - 0x0000A5A6 - 2 ^ 32 /\
  to_fixed (to_float 0xFFFFFFFF) = -1.
Proof.
  assert (H1 : to_fixed (to_float (-1)) = -1 - 2 ^ 32) by (vm_compute; reflexivity).
  split; [| split; [exact H1 | split; vm_compute; reflexivity]].
  intros H. specialize (H (-1) ltac:(lia)). rewrite H1 in H. discriminate H.
Qed.

(** On an unsigned 32-bit pattern [v], the input form that the sign test
    of [to_float] is written for, the round trip yields the signed
    two's-complement reading of [v]: the 32-bit pattern comes back
    exactly, and the integer itself does when [v < 2^31]. *)
Theorem to_fixed_to_float_pattern (v : Z) :
  0 <= v < 2 ^ 32 ->
  to_fixed (to_float v) = wrap32 v /\
  Z.land (to_fixed (to_float v)) 0xFFFFFFFF = v /\
  (v < 2 ^ 31 -> to_fixed (to_float v) = v).
Proof.
  intros Hv.
  assert (Hrt : to_fixed (to_float v) = wrap32 v).
  { rewrite to_float_pattern by assumption. apply to_fixed_scaled. }
  rewrite Hrt, land_low32, wrap32_low by assumption.
  split; [reflexivity |].
  destruct (Z.ltb_spec v (2 ^ 31)) as [Hlt | Hge].
  - split; [apply Z.mod_small; lia | reflexivity].
  - split; [| lia].
    replace (v - 2 ^ 32) with (v + (-1) * 2 ^ 32) by lia.
    rewrite Z_mod_plus_full. apply Z.mod_small. lia.
Qed.

Lemma to_fixed_to_float_pattern_witness :
  0 <= 0xFFFF5A5A < 2 ^ 32 /\
  to_fixed (to_float 0xFFFF5A5A) = - 0x0000A5A6 /\
  Z.land (to_fixed (to_float 0xFFFF5A5A)) 0xFFFFFFFF = 0xFFFF5A5A.
Proof.
  assert (Hr : 0 <= 0xFFFF5A5A < 2 ^ 32) by lia.
  destruct (to_fixed_to_float_pattern 0xFFFF5A5A Hr) as [H1 [H2 _]].
  split; [exact Hr | split; [exact H1 | exact H2]].
Defined.

(** ** [to_float] on negative integers *)



(** Outside the 32-bit range the sign test can read zero on a negative
    integer: bit 31 of [-2^31 - 1] is clear. *)
Example sign_test_below_range : Z.land (- 2 ^ 31 - 1) 0x80000000 = 0.
Proof. reflexivity. Qed.

(** ** The spike detector *)

Section DetectorProperties.

Context {sample : Type} (exceeds : sample -> bool).

(** The index loop, started at the end of an already final prefix, fills
    in the flags that the single pass computes. *)
Lemma detect_fold (rest : list sample) :
  forall (dpre : list sample) (done : list bool) (rc : Z),
    length done = length dpre ->
    spikes
      (fold_left (detect_step exceeds (dpre ++ rest))
         (seq (length dpre) (length rest))
         {| spikes := done ++ repeat false (length rest);
            refractory_counter := rc |})
    = done ++ detect_from exceeds rc rest.
Proof.
  induction rest as [| v rest IH]; intros dpre done rc Hlen.
  - reflexivity.
  - assert (Hdata : dpre ++ v :: rest = (dpre ++ [v]) ++ rest)
      by (rewrite <- app_assoc; reflexivity).
    assert (Hnext : S (length dpre) = length (dpre ++ [v]))
      by (rewrite length_app; simpl; lia).
    cbn [length seq fold_left repeat detect_from].
    unfold detect_step at 2. cbn [refractory_counter spikes].
    destruct (0 <? rc) eqn:Hrc.
    + rewrite Hdata, Hnext.
      replace (done ++ false :: repeat false (length rest))
        with ((done ++ [false]) ++ repeat false (length rest))
        by (rewrite <- app_assoc; reflexivity).
      rewrite IH by (rewrite !length_app; simpl; lia).
      rewrite <- app_assoc. reflexivity.
    + rewrite (list_lookup_middle dpre rest v (length dpre) eq_refl).
      destruct (exceeds v) eqn:Hv.
      * cbn [spikes refractory_counter].
        rewrite insert_app_r_alt by lia.
        replace (length dpre - length done)%nat with 0%nat by lia.
        cbn [insert list_insert].
        rewrite Hdata, Hnext.
        replace (done ++ true :: repeat false (length rest))
          with ((done ++ [true]) ++ repeat false (length rest))
          by (rewrite <- app_assoc; reflexivity).
        rewrite IH by (rewrite !length_app; simpl; lia).
        rewrite <- app_assoc. reflexivity.
      * rewrite Hdata, Hnext.
        replace (done ++ false :: repeat false (length rest))
          with ((done ++ [false]) ++ repeat false (length rest))
          by (rewrite <- app_assoc; reflexivity).
        rewrite IH by (rewrite !length_app; simpl; lia).
        rewrite <- app_assoc. reflexivity.
Qed.

Lemma detect_spikes_short (data : list sample) :
  (length data <= window_size)%nat ->
  detect_spikes exceeds data = repeat false (length data).
Proof.
  intros Hlen. unfold detect_spikes.
  replace (length data - window_size)%nat with 0%nat by lia.
  reflexivity.
Qed.

Lemma detect_spikes_warm (warm rest : list sample) :
  length warm = window_size ->
  detect_spikes exceeds (warm ++ rest)
  = repeat false window_size ++ detect_from exceeds 0 rest.
Proof.
  intros Hlen. unfold detect_spikes.
  rewrite length_app, Hlen.
  replace (window_size + length rest - window_size)%nat
    with (length rest) by lia.
  rewrite repeat_app. rewrite <- Hlen at 1.
  apply detect_fold. rewrite repeat_length. lia.
Qed.

(** While the refractory counter is positive no flag is raised. *)
Lemma detect_from_refractory (data : list sample) :
  forall (rc : Z) (j : nat),
    Z.of_nat j < rc -> nth j (detect_from exceeds rc data) false = false.
Proof.
  induction data as [| v rest IH]; intros rc j Hj.
  - destruct j; reflexivity.
  - cbn [detect_from].
    destruct (Z.ltb_spec 0 rc) as [Hpos | Hneg]; [| lia].
    destruct j as [| j']; [reflexivity |].
    cbn [nth]. apply IH. lia.
Qed.

Lemma detect_from_suppressed (data : list sample) :
  forall (rc : Z) (j k : nat),
    nth j (detect_from exceeds rc data) false = true ->
    (1 <= k <= 8)%nat ->
    nth (j + k) (detect_from exceeds rc data) false = false.
Proof.
  induction data as [| v rest IH]; intros rc j k Hj Hk.
  - destruct j; discriminate Hj.
  - cbn [detect_from] in *.
    destruct (0 <? rc).
    + destruct j as [| j']; [discriminate Hj |].
      cbn [nth Nat.add] in *. eapply IH; eassumption.
    + destruct (exceeds v).
      * destruct j as [| j'].
        -- destruct k as [| k']; [lia |].
           cbn [nth Nat.add]. apply detect_from_refractory.
           unfold refractory_period. lia.
        -- cbn [nth Nat.add] in *. eapply IH; eassumption.
      * destruct j as [| j']; [discriminate Hj |].
        cbn [nth Nat.add] in *. eapply IH; eassumption.
Qed.

Lemma detect_spikes_layout (data : list sample) :
  detect_spikes exceeds data
  = repeat false (Nat.min window_size (length data))
    ++ detect_from exceeds 0 (skipn window_size data).
Proof.
  destruct (Nat.le_gt_cases (length data) window_size) as [Hle | Hgt].
  - rewrite detect_spikes_short by assumption.
    rewrite skipn_all2 by assumption.
    rewrite Nat.min_r by assumption.
    rewrite app_nil_r. reflexivity.
  - rewrite <- (firstn_skipn window_size data) at 1.
    rewrite detect_spikes_warm by (rewrite length_firstn; lia).
    rewrite Nat.min_l by lia. reflexivity.
Qed.

Lemma nth_repeat_false (m i : nat) : nth i (repeat false m) false = false.
Proof.
  revert i. induction m as [| m IH]; intros [| i]; simpl; auto.
Qed.

(** C7.  Whatever the samples, no index below [window_size] is flagged,
    and the samples of the warm-up window leave the detector in its
    initial state: after them the flags are those of a detector whose
    refractory counter is 0. *)
Theorem detect_spikes_warm_up :
  (forall (data : list sample) (i : nat),
      (i < window_size)%nat -> nth i (detect_spikes exceeds data) false = false) /\
  (forall warm rest : list sample,
      length warm = window_size ->
      detect_spikes exceeds (warm ++ rest)
      = repeat false window_size ++ detect_from exceeds 0 rest).
Proof.
  split; [| exact detect_spikes_warm].
  intros data i Hi. rewrite detect_spikes_layout.
  destruct (Nat.lt_ge_cases i (Nat.min window_size (length data))) as [Hlt | Hge].
  - rewrite app_nth1 by (rewrite repeat_length; assumption).
    apply nth_repeat_false.
  - assert (Hshort : (length data <= window_size)%nat) by lia.
    rewrite skipn_all2 by assumption. rewrite app_nil_r.
    apply nth_repeat_false.
Qed.

(** C8.  After a flagged index [i] the flags at [i+1 .. i+8] are all
    false, whatever the amplitudes there. *)
Theorem detect_spikes_refractory (data : list sample) (i k : nat) :
  nth i (detect_spikes exceeds data) false = true ->
  (1 <= k <= 8)%nat ->
  nth (i + k) (detect_spikes exceeds data) false = false.
Proof.
  rewrite detect_spikes_layout.
  set (m := Nat.min window_size (length data)).
  intros Hi Hk.
  destruct (Nat.lt_ge_cases i m) as [Hlt | Hge].
  - rewrite app_nth1 in Hi by (rewrite repeat_length; assumption).
    rewrite nth_repeat_false in Hi. discriminate Hi.
  - rewrite app_nth2 in Hi by (rewrite repeat_length; assumption).
    rewrite app_nth2 by (rewrite repeat_length; lia).
    rewrite repeat_length in *.
    replace (i + k - m)%nat with (i - m + k)%nat by lia.
    eapply detect_from_suppressed; eassumption.
Qed.

End DetectorProperties.

(** ** The packet encoder *)

Section EncoderProperties.

Context {sample : Type}.
Context (below : sample -> bool) (sub : sample -> sample -> sample).
Context (zero : sample).

Lemma total_covered_app (ps qs : list (Packet sample)) :
  total_covered (ps ++ qs) = total_covered ps + total_covered qs.
Proof.
  unfold total_covered. induction ps as [| p ps IH]; simpl; [reflexivity |].
  rewrite IH. lia.
Qed.

Lemma count_spike_packets_app (ps qs : list (Packet sample)) :
  count_spike_packets (ps ++ qs)
  = (count_spike_packets ps + count_spike_packets qs)%nat.
Proof.
  unfold count_spike_packets. rewrite List.filter_app, length_app. reflexivity.
Qed.

(** One iteration keeps the invariant, emits only well-formed runs, emits a
    spike packet exactly when the flag is set, and accounts for exactly
    one more sample. *)
Lemma compress_step_spec (st : encoder_state sample) (v : sample) (f : bool) :
  encoder_inv st ->
  encoder_inv (fst (compress_step below sub st v f)) /\
  Forall run_length_ok (snd (compress_step below sub st v f)) /\
  count_spike_packets (snd (compress_step below sub st v f)) = (if f then 1 else 0)%nat /\
  total_covered (snd (compress_step below sub st v f)) + pending_samples (fst (compress_step below sub st v f))
  = pending_samples st + 1.
Proof.
  destruct st as [p c rv ir].
  unfold encoder_inv, pending_samples, compress_step, emit_pending,
    count_spike_packets, total_covered, max_run_length.
  cbn [in_run run_count run_value prev_value].
  intros Hinv.
  destruct f; [| destruct (below (sub v p))]; destruct ir;
    cbn [negb andb in_run run_count run_value prev_value];
    repeat match goal with
      | |- context [0 <? ?x] => destruct (Z.ltb_spec 0 x)
      | |- context [255 <=? ?x] => destruct (Z.leb_spec 255 x)
      end;
    cbn [fst snd app map fold_right List.filter is_spike_packet length
         samples_covered in_run run_count run_value prev_value];
    repeat split;
    repeat constructor; try lia.
Qed.

Lemma encode_all_spec (data : list sample) :
  forall (flags : list bool) (st : encoder_state sample),
    length flags = length data ->
    encoder_inv st ->
    encoder_inv (fst (encode_all below sub st data flags)) /\
    Forall run_length_ok (snd (encode_all below sub st data flags)) /\
    count_spike_packets (snd (encode_all below sub st data flags)) = count_true flags /\
    total_covered (snd (encode_all below sub st data flags))
      + pending_samples (fst (encode_all below sub st data flags))
    = pending_samples st + Z.of_nat (length data).
Proof.
  induction data as [| v data IH]; intros [| f flags] st Hlen Hinv;
    try discriminate Hlen.
  - cbn. repeat split; [assumption | constructor | lia].
  - cbn [encode_all].
    destruct (compress_step_spec st v f Hinv) as (Hi1 & Hok1 & Hs1 & Hc1).
    destruct (compress_step below sub st v f) as [st1 out1]. cbn [fst snd] in *.
    injection Hlen as Hlen.
    destruct (IH flags st1 Hlen Hi1) as (Hi2 & Hok2 & Hs2 & Hc2).
    destruct (encode_all below sub st1 data flags) as [st2 out2]. cbn [fst snd] in *.
    repeat split.
    + assumption.
    + apply Forall_app. split; assumption.
    + rewrite count_spike_packets_app, Hs1, Hs2.
      unfold count_true. destruct f; reflexivity.
    + rewrite total_covered_app. cbn [length]. lia.
Qed.

(** The indexed loop of the source is the single pass. *)
Lemma compress_loop_encode_all (data : list sample) :
  forall (frest fpre : list bool) (st : encoder_state sample)
         (out : list (Packet sample)),
    length frest = length data ->
    compress_loop below sub (fpre ++ frest) (length fpre) data st out
    = Some (fst (encode_all below sub st data frest), out ++ snd (encode_all below sub st data frest)).
Proof.
  induction data as [| v data IH]; intros [| f frest] fpre st out Hlen;
    try discriminate Hlen.
  - cbn. rewrite app_nil_r. reflexivity.
  - cbn [compress_loop encode_all].
    rewrite (list_lookup_middle fpre frest f (length fpre) eq_refl).
    destruct (compress_step below sub st v f) as [st1 out1].
    injection Hlen as Hlen.
    replace (fpre ++ f :: frest) with ((fpre ++ [f]) ++ frest)
      by (rewrite <- app_assoc; reflexivity).
    replace (S (length fpre)) with (length (fpre ++ [f]))
      by (rewrite length_app; simpl; lia).
    rewrite IH by assumption.
    destruct (encode_all below sub st1 data frest) as [st2 out2]. cbn [fst snd].
    rewrite <- app_assoc. reflexivity.
Qed.

Lemma encoder_init_inv : encoder_inv (encoder_init zero).
Proof. reflexivity. Qed.

Lemma final_run_open (st : encoder_state sample) :
  encoder_inv st ->
  final_run st
  = if in_run st then [RunLength (run_count st) (run_value st)] else [].
Proof.
  unfold encoder_inv, final_run. destruct (in_run st); [| reflexivity].
  intros Hinv. destruct (Z.ltb_spec 0 (run_count st)); [reflexivity | lia].
Qed.

Lemma final_run_spec (st : encoder_state sample) :
  encoder_inv st ->
  Forall run_length_ok (final_run st) /\
  count_spike_packets (final_run st) = 0%nat /\
  total_covered (final_run st) = pending_samples st.
Proof.
  intros Hinv. rewrite (final_run_open st Hinv).
  unfold encoder_inv, pending_samples, max_run_length in *.
  destruct (in_run st); cbn; repeat split; repeat constructor; lia.
Qed.

(** C5.  On a sample sequence with its parallel flag sequence the encoder
    emits exactly one spike packet per true flag, hence at least as many
    packets as spikes, and every run-length packet has a count between 1
    and 255. *)
Theorem compress_signal_packets (data : list sample) (flags : list bool) :
  length flags = length data ->
  exists packets : list (Packet sample),
    compress_signal below sub zero data flags = Some packets /\
    count_spike_packets packets = count_true flags /\
    (count_true flags <= length packets)%nat /\
    Forall run_length_ok packets.
Proof.
  intros Hlen. unfold compress_signal.
  pose proof (compress_loop_encode_all data flags [] (encoder_init zero) [] Hlen)
    as Hloop.
  cbn [app length] in Hloop. rewrite Hloop. clear Hloop.
  destruct (encode_all_spec data flags (encoder_init zero) Hlen encoder_init_inv)
    as (Hinv & Hok & Hsp & _).
  destruct (final_run_spec _ Hinv) as (Hok' & Hsp' & _).
  cbn [app]. eexists. split; [reflexivity |].
  assert (Hcount :
    count_spike_packets
      (snd (encode_all below sub (encoder_init zero) data flags)
       ++ final_run (fst (encode_all below sub (encoder_init zero) data flags)))
    = count_true flags).
  { rewrite count_spike_packets_app, Hsp, Hsp'. lia. }
  split; [exact Hcount |]. split.
  - rewrite <- Hcount. unfold count_spike_packets. apply List.filter_length_le.
  - apply Forall_app. split; assumption.
Qed.

(** C6, amended.  The pending run is flushed once, after the loop: when a
    run is open after the last sample the output ends with its
    [RunLength run_count run_value] packet, otherwise nothing is added,
    and the packets returned account for every input sample, so that no
    sample is left in an unemitted run.  The encoder state is not closed:
    the local variables at the [return] are those the loop left, [in_run]
    and [run_count] included. *)
Theorem compress_signal_flush (data : list sample) (flags : list bool) :
  length flags = length data ->
  exists (st : encoder_state sample) (out : list (Packet sample)),
    compress_loop below sub flags 0 data (encoder_init zero) [] = Some (st, out) /\
    compress_signal below sub zero data flags = Some (out ++ final_run st) /\
    compress_signal_locals below sub zero data flags
    = Some (st, out ++ final_run st) /\
    final_run st
    = (if in_run st then [RunLength (run_count st) (run_value st)] else []) /\
    total_covered out + pending_samples st = Z.of_nat (length data) /\
    total_covered (out ++ final_run st) = Z.of_nat (length data).
Proof.
  intros Hlen. unfold compress_signal, compress_signal_locals.
  pose proof (compress_loop_encode_all data flags [] (encoder_init zero) [] Hlen)
    as Hloop.
  cbn [app length] in Hloop. rewrite Hloop. clear Hloop.
  destruct (encode_all_spec data flags (encoder_init zero) Hlen encoder_init_inv)
    as (Hinv & _ & _ & Hcov).
  destruct (final_run_spec _ Hinv) as (_ & _ & Hfin).
  cbn [app]. eexists. eexists. split; [reflexivity |].
  split; [reflexivity |].
  split; [reflexivity |].
  split; [apply final_run_open; assumption |].
  split.
  - rewrite Hcov. reflexivity.
  - rewrite total_covered_app, Hfin, Hcov. reflexivity.
Qed.

End EncoderProperties.

(** ** The filter *)

Lemma map_this_inj (l1 l2 : list Qc) : map this l1 = map this l2 -> l1 = l2.
Proof.
  revert l2. induction l1 as [| q l1 IH]; intros [| q' l2] H;
    try discriminate H; [reflexivity |].
  cbn [map] in H. injection H as Hq Hl.
  f_equal; [| apply IH; assumption].
  apply Qc_is_canon. rewrite Hq. reflexivity.
Qed.

(** C1, as stated, fails: [filter_signal] works on floats and neither
    truncates its products nor its sum.  On the single raw sample 10 the
    recurrence of the specification gives raw 0 (the product
    [0xD6B * 10 >> 16] vanishes), while the filter returns [34350 / 2^32],
    which is not the float of raw 0 and converts back to raw 1. *)
Lemma filter_signal_not_fixed_point :
  filter_signal (map to_float [10]) <> map to_float (spec_filter [10]) /\
  map to_fixed (filter_signal (map to_float [10])) <> spec_filter [10] /\
  spec_filter [10] = [0] /\
  map to_fixed (filter_signal (map to_float [10])) = [1].
Proof.
  assert (H1 : spec_filter [10] = [0]) by (vm_compute; reflexivity).
  assert (H2 : map to_fixed (filter_signal (map to_float [10])) = [1])
    by (vm_compute; reflexivity).
  split; [| split; [| split; assumption]].
  - intros H. apply (f_equal (map this)) in H. vm_compute in H. discriminate H.
  - rewrite H1, H2. discriminate.
Qed.

Lemma a_float_head : hd 0%Qc a_float = 1%Qc.
Proof. apply Qc_is_canon. reflexivity. Qed.

Lemma map_div_one (l : list Qc) : map (fun c => (c / 1)%Qc) l = l.
Proof.
  induction l as [| c l IH]; [reflexivity |].
  cbn [map]. rewrite IH. f_equal. field. discriminate.
Qed.

Section FloatOpsProperties.

Variable F : Type.
Variables (fadd fsub fmul fdiv : F -> F -> F) (fzero : F).
Variable int_truediv : Z -> Z -> F.

Lemma delay_update_delays (cs : list (F * F)) (xh yh : list F) (x y : F) :
  delay_update fadd fsub fmul cs (delays fadd fsub fmul fzero cs xh yh) x y
  = delays fadd fsub fmul fzero cs (x :: xh) (y :: yh).
Proof.
  induction cs as [| [bi ai] cs IH]; [reflexivity |].
  cbn [delays delay_update]. rewrite <- IH.
  destruct cs as [| c cs']; reflexivity.
Qed.

Lemma lfilter_run_recurrence (b0 : F) (cs : list (F * F)) (xs xh yh : list F) :
  lfilter_run fadd fsub fmul b0 cs (delays fadd fsub fmul fzero cs xh yh) xs
  = recurrence_run fadd fsub fmul fzero b0 cs xh yh xs.
Proof.
  revert xh yh. induction xs as [| x xs IH]; intros xh yh; [reflexivity |].
  cbn [lfilter_run recurrence_run].
  destruct cs as [| c cs'].
  - cbn [delays delay_update]. f_equal. exact (IH (x :: xh) (fmul x b0 :: yh)).
  - cbn [delays]. f_equal.
    change (delay_of_history fadd fsub fmul fzero (c :: cs') xh yh
            :: delays fadd fsub fmul fzero cs' xh yh)
      with (delays fadd fsub fmul fzero (c :: cs') xh yh).
    rewrite delay_update_delays. apply IH.
Qed.

Lemma delays_start (cs : list (F * F)) :
  delays fadd fsub fmul fzero cs [] [] = repeat fzero (length cs).
Proof.
  induction cs as [| [bi ai] cs IH]; [reflexivity |].
  cbn [delays length repeat delay_of_history]. rewrite IH. reflexivity.
Qed.

Lemma lfilter_ops_recurrence (b a x : list F) :
  lfilter_ops fadd fsub fmul fdiv fzero b a x
  = recurrence_run fadd fsub fmul fzero
      (hd fzero (map (fun c => fdiv c (hd fzero a)) b))
      (combine (tl (map (fun c => fdiv c (hd fzero a)) b))
               (tl (map (fun c => fdiv c (hd fzero a)) a))) [] [] x.
Proof.
  unfold lfilter_ops. cbv zeta. rewrite <- delays_start.
  apply lfilter_run_recurrence.
Qed.

(** C1, amended.  Whatever the float operations are (no law of arithmetic
    is assumed of them, so this covers binary64 with its rounding),
    [filter_signal] returns the outputs of a fourth-order recurrence on
    floats, started with a history of zeros: the coefficients are the
    floats of [b_coeff] and [a_coeff], each divided by the float of
    [a_coeff[0]]; the products are float products and the sums float sums,
    with no call to [FixedPoint.mult] and no truncation to 32 bits.  With
    at least four earlier samples the output is
    [((((x4*b4 - y4*a4) + x3*b3 - y3*a3) + x2*b2 - y2*a2) + x1*b1 - y1*a1)
     + b0*x], where [x1], [y1] are the most recent earlier input and
    output; with fewer, the chain starts at the oldest sample there is, and
    the first output is [0.0 + b0*x]. *)
Theorem filter_signal_float_recurrence :
  (forall data : list F,
     filter_signal_ops fadd fsub fmul fdiv fzero int_truediv data
     = float_recurrence_ops fadd fsub fmul fdiv fzero int_truediv data) /\
  (let a0 := to_float_ops int_truediv 0x00010000 in
   let c := fun v => fdiv (to_float_ops int_truediv v) a0 in
   hd fzero (b_normalised fdiv fzero int_truediv) = c 0x00000D6B /\
   combine (tl (b_normalised fdiv fzero int_truediv))
           (tl (a_normalised fdiv fzero int_truediv))
   = [(c 0, c (- 0x000270A4)); (c (- 0x0000A5A6), c 0x0002B852);
      (c 0, c (- 0x0001B333)); (c 0x00000D6B, c 0x00003D71)]) /\
  (forall (b0 b1 b2 b3 b4 a1 a2 a3 a4 x x1 x2 x3 x4 y1 y2 y3 y4 : F)
          (xs xh yh : list F),
     let cs := [(b1, a1); (b2, a2); (b3, a3); (b4, a4)] in
     let y :=
       fadd
         (fsub (fadd
            (fsub (fadd
               (fsub (fadd
                  (fsub (fmul x4 b4) (fmul y4 a4))
                  (fmul x3 b3)) (fmul y3 a3))
               (fmul x2 b2)) (fmul y2 a2))
            (fmul x1 b1)) (fmul y1 a1))
         (fmul b0 x) in
     recurrence_run fadd fsub fmul fzero b0 cs
       (x1 :: x2 :: x3 :: x4 :: xh) (y1 :: y2 :: y3 :: y4 :: yh) (x :: xs)
     = y :: recurrence_run fadd fsub fmul fzero b0 cs
              (x :: x1 :: x2 :: x3 :: x4 :: xh)
              (y :: y1 :: y2 :: y3 :: y4 :: yh) xs) /\
  (forall (b0 : F) (cs : list (F * F)) (c : F * F) (x : F) (xs : list F),
     recurrence_run fadd fsub fmul fzero b0 (c :: cs) [] [] (x :: xs)
     = fadd fzero (fmul b0 x)
       :: recurrence_run fadd fsub fmul fzero b0 (c :: cs)
            [x] [fadd fzero (fmul b0 x)] xs).
Proof.
  split; [| split; [| split]].
  - intros data. unfold filter_signal_ops, float_recurrence_ops,
      b_normalised, a_normalised.
    apply lfilter_ops_recurrence.
  - cbv zeta. split; reflexivity.
  - intros. reflexivity.
  - intros b0 cs [bi ai] x xs. reflexivity.
Qed.

End FloatOpsProperties.

(** In exact arithmetic the order of the operations is immaterial: on
    rationals the filter over open operations is [filter_signal]. *)
Lemma lfilter_run_df2t (b0 b1 b2 b3 b4 a0 a1 a2 a3 a4 : Qc) (xs : list Qc) :
  forall z1 z2 z3 z4 : Qc,
    lfilter_run Qcplus Qcminus Qcmult b0
      [(b1, a1); (b2, a2); (b3, a3); (b4, a4)] [z1; z2; z3; z4] xs
    = df2t_run [b0; b1; b2; b3; b4] [a0; a1; a2; a3; a4] [z1; z2; z3; z4] xs.
Proof.
  induction xs as [| x xs IH]; intros z1 z2 z3 z4; [reflexivity |].
  cbn [lfilter_run df2t_run delay_update df2t_update hd tl].
  rewrite IH. f_equal; [ring |].
  repeat (f_equal; try ring).
Qed.

Lemma filter_signal_ops_exact (data : list Qc) :
  filter_signal_ops Qcplus Qcminus Qcmult Qcdiv 0%Qc
    (fun a b => (Z2Qc a / Z2Qc b)%Qc) data
  = filter_signal data.
Proof.
  unfold filter_signal_ops, lfilter_ops, filter_signal, lfilter.
  unfold b_float_ops, a_float_ops, b_float, a_float, b_coeff, a_coeff.
  cbn [map hd tl combine length repeat Nat.max Nat.sub].
  apply lfilter_run_df2t.
Qed.

(** With the second sample the outputs part for good: the raw input
    [1.0, 0.0] gives a second float output above 3435, where the
    fixed-point recurrence gives raw 8382, about 0.128. *)
Example filter_signal_second_output :
  (Z2Qc 3435 < nth 1 (filter_signal (map to_float [0x00010000; 0]%Z)) 0)%Qc /\
  spec_filter [0x00010000; 0] = [0x00000D6B; 8382].
Proof. split; vm_compute; reflexivity. Qed.

(** ** The detector and the encoder on concrete float streams *)

Lemma detect_spikes_warm_up_witness :
  (3 < window_size)%nat /\
  nth 3 (detect_spikes_float (repeat (Z2Qc 100) 40)) false = false /\
  detect_spikes_float (repeat (Z2Qc 100) 32 ++ repeat (Z2Qc 100) 8)
  = repeat false window_size ++ detect_from exceeds_spike 0 (repeat (Z2Qc 100) 8).
Proof.
  assert (Hi : (3 < window_size)%nat) by (unfold window_size; lia).
  split; [exact Hi |]. split.
  - exact (proj1 (detect_spikes_warm_up exceeds_spike) _ 3%nat Hi).
  - apply (proj2 (detect_spikes_warm_up exceeds_spike)). reflexivity.
Defined.

Lemma detect_spikes_refractory_witness :
  nth 32 (detect_spikes_float (repeat (Z2Qc 100) 50)) false = true /\
  (1 <= 8 <= 8)%nat /\
  nth (32 + 8) (detect_spikes_float (repeat (Z2Qc 100) 50)) false = false.
Proof.
  assert (Hs : nth 32 (detect_spikes_float (repeat (Z2Qc 100) 50)) false = true)
    by (vm_compute; reflexivity).
  assert (Hk : (1 <= 8 <= 8)%nat) by lia.
  split; [exact Hs |]. split; [exact Hk |].
  exact (detect_spikes_refractory exceeds_spike _ 32%nat 8%nat Hs Hk).
Defined.

(** The ninth sample after a spike can be flagged again. *)
Example detect_spikes_ninth :
  nth (32 + 9) (detect_spikes_float (repeat (Z2Qc 100) 50)) false = true.
Proof. vm_compute. reflexivity. Qed.

Lemma compress_signal_packets_witness :
  exists packets : list (Packet Qc),
    compress_signal_float [Z2Qc 1; Z2Qc 1; Z2Qc 7; Z2Qc 1] [false; false; true; false]
    = Some packets /\
    count_spike_packets packets = count_true [false; false; true; false] /\
    (count_true [false; false; true; false] <= length packets)%nat /\
    Forall run_length_ok packets.
Proof.
  apply (compress_signal_packets below_rle Qcminus 0%Qc). reflexivity.
Defined.

(** C6, as stated, fails in its last part: on three equal samples, none
    flagged, the run opened at the second sample is emitted by the final
    block, and at the [return] the encoder state still has [in_run] set
    and [run_count] at 2. *)
Lemma compress_signal_run_left_open :
  exists (st : encoder_state Qc) (packets : list (Packet Qc)),
    compress_signal_locals below_rle Qcminus 0%Qc
      [Z2Qc 1; Z2Qc 1; Z2Qc 1] [false; false; false] = Some (st, packets) /\
    compress_signal_float [Z2Qc 1; Z2Qc 1; Z2Qc 1] [false; false; false]
    = Some packets /\
    map packet_type packets = [0; 1] /\
    in_run st = true /\ run_count st = 2.
Proof.
  eexists. eexists. split; [vm_compute; reflexivity |].
  split; [vm_compute; reflexivity |].
  split; [| split]; reflexivity.
Qed.

Lemma compress_signal_flush_witness :
  exists (st : encoder_state Qc) (out : list (Packet Qc)),
    compress_loop below_rle Qcminus [false; false; false] 0
      [Z2Qc 1; Z2Qc 1; Z2Qc 1] (encoder_init 0%Qc) [] = Some (st, out) /\
    compress_signal_float [Z2Qc 1; Z2Qc 1; Z2Qc 1] [false; false; false]
    = Some (out ++ final_run st) /\
    compress_signal_locals below_rle Qcminus 0%Qc
      [Z2Qc 1; Z2Qc 1; Z2Qc 1] [false; false; false]
    = Some (st, out ++ final_run st) /\
    final_run st
    = (if in_run st then [RunLength (run_count st) (run_value st)] else []) /\
    total_covered out + pending_samples st = 3 /\
    total_covered (out ++ final_run st) = 3.
Proof.
  apply (compress_signal_flush below_rle Qcminus 0%Qc
           [Z2Qc 1; Z2Qc 1; Z2Qc 1] [false; false; false]).
  reflexivity.
Defined.

(** A stream that ends inside a run: the loop leaves it pending and the
    final block emits it. *)
Example compress_signal_final_run :
  option_map (map packet_type)
    (compress_signal_float [Z2Qc 1; Z2Qc 1; Z2Qc 1] [false; false; false])
  = Some [0; 1] /\
  option_map (fun r => map packet_type (snd r))
    (compress_loop below_rle Qcminus [false; false; false] 0
       [Z2Qc 1; Z2Qc 1; Z2Qc 1] (encoder_init 0%Qc) [])
  = Some [0].
Proof. split; vm_compute; reflexivity. Qed.

(** ** Runs of identical samples *)

Section EncoderRuns.

Context {sample : Type}.
Context (below : sample -> bool) (sub : sample -> sample -> sample).
Context (zero : sample).

Lemma compress_signal_encode_all (data : list sample) (flags : list bool) :
  length flags = length data ->
  compress_signal below sub zero data flags
  = Some (snd (encode_all below sub (encoder_init zero) data flags)
          ++ final_run (fst (encode_all below sub (encoder_init zero) data flags))).
Proof.
  intros Hlen. unfold compress_signal.
  pose proof (compress_loop_encode_all below sub data flags []
                (encoder_init zero) [] Hlen) as Hloop.
  cbn [app length] in Hloop. rewrite Hloop. reflexivity.
Qed.

Lemma encode_all_app (d1 : list sample) :
  forall (f1 : list bool) (d2 : list sample) (f2 : list bool)
         (st : encoder_state sample),
    length f1 = length d1 ->
    encode_all below sub st (d1 ++ d2) (f1 ++ f2)
    = (fst (encode_all below sub (fst (encode_all below sub st d1 f1)) d2 f2),
       snd (encode_all below sub st d1 f1)
       ++ snd (encode_all below sub (fst (encode_all below sub st d1 f1)) d2 f2)).
Proof.
  induction d1 as [| v d1 IH]; intros [| f f1] d2 f2 st Hlen;
    try discriminate Hlen.
  - cbn. destruct (encode_all below sub st d2 f2). reflexivity.
  - injection Hlen as Hlen. cbn [app encode_all].
    destruct (compress_step below sub st v f) as [st1 out1].
    rewrite (IH f1 d2 f2 st1 Hlen).
    destruct (encode_all below sub st1 d1 f1) as [st2 out2]. cbn [fst snd].
    rewrite app_assoc. reflexivity.
Qed.

Variable v : sample.

(** An open run of [v] takes further samples equal to [v] without
    emitting, as long as it stays below the maximal length. *)
Lemma encode_all_extend_run (n : nat) :
  forall (p : sample) (c : Z),
    below (sub v p) = true ->
    c + Z.of_nat n < max_run_length ->
    encode_all below sub
      {| prev_value := p; run_count := c; run_value := v; in_run := true |}
      (repeat v n) (repeat false n)
    = ({| prev_value := p; run_count := c + Z.of_nat n;
          run_value := v; in_run := true |}, []).
Proof.
  unfold max_run_length.
  induction n as [| n IH]; intros p c Hp Hc.
  - cbn. rewrite Z.add_0_r. reflexivity.
  - cbn [repeat encode_all]. unfold compress_step, max_run_length.
    cbn [prev_value in_run run_count run_value negb]. rewrite Hp.
    destruct (Z.leb_spec 255 (c + 1)) as [Hge | Hlt]; [lia |].
    rewrite (IH p (c + 1) Hp) by lia.
    cbn [app]. replace (c + 1 + Z.of_nat n) with (c + Z.of_nat (S n)) by lia.
    reflexivity.
Qed.

(** From a closed run, [k] samples equal to [v] open a run of [k]. *)
Lemma encode_all_open_run (k : nat) (p rv : sample) :
  below (sub v p) = true ->
  (1 <= k)%nat -> Z.of_nat k < max_run_length ->
  encode_all below sub
    {| prev_value := p; run_count := 0; run_value := rv; in_run := false |}
    (repeat v k) (repeat false k)
  = ({| prev_value := p; run_count := Z.of_nat k;
        run_value := v; in_run := true |}, []).
Proof.
  unfold max_run_length.
  intros Hp Hk1 Hk2. destruct k as [| k]; [lia |].
  cbn [repeat encode_all]. unfold compress_step, max_run_length.
  cbn [prev_value in_run run_count run_value negb]. rewrite Hp.
  destruct (Z.leb_spec 255 1) as [Hge | Hlt]; [lia |].
  rewrite (encode_all_extend_run k p 1 Hp) by (unfold max_run_length; lia).
  cbn [app]. replace (1 + Z.of_nat k) with (Z.of_nat (S k)) by lia.
  reflexivity.
Qed.

(** From a closed run, 255 samples equal to [v] give one full run, which
    is emitted at once and becomes the reference value. *)
Lemma encode_all_full_run (p rv : sample) :
  below (sub v p) = true ->
  encode_all below sub
    {| prev_value := p; run_count := 0; run_value := rv; in_run := false |}
    (repeat v 255) (repeat false 255)
  = ({| prev_value := v; run_count := 0; run_value := v; in_run := false |},
     [RunLength 255 v]).
Proof.
  intros Hp.
  change (repeat v 255) with (repeat v 254 ++ [v]).
  change (repeat false 255) with (repeat false 254 ++ [false]).
  rewrite encode_all_app by (rewrite !repeat_length; reflexivity).
  rewrite (encode_all_open_run 254 p rv Hp) by (unfold max_run_length; lia).
  cbn [fst snd encode_all app]. unfold compress_step.
  cbn [prev_value in_run run_count run_value negb]. rewrite Hp.
  reflexivity.
Qed.

(** 300 samples equal to [v], none flagged: one run of 255, and 45
    samples pending for the final block. *)
Lemma compress_signal_constant_300 :
  below (sub v zero) = true ->
  below (sub v v) = true ->
  compress_signal below sub zero (repeat v 300) (repeat false 300)
  = Some [RunLength 255 v; RunLength 45 v].
Proof.
  intros H0 Hv.
  rewrite compress_signal_encode_all by (rewrite !repeat_length; reflexivity).
  change (repeat v 300) with (repeat v 255 ++ repeat v 45).
  change (repeat false 300) with (repeat false 255 ++ repeat false 45).
  rewrite encode_all_app by (rewrite !repeat_length; reflexivity).
  unfold encoder_init.
  rewrite (encode_all_full_run zero zero H0). cbn [fst snd].
  rewrite (encode_all_open_run 45 v v Hv) by (unfold max_run_length; lia).
  reflexivity.
Qed.

End EncoderRuns.

(** ** The pipeline on a constant input *)

Section DetectorLength.

Context {sample : Type} (exceeds : sample -> bool).

Lemma length_detect_from (data : list sample) :
  forall rc : Z, length (detect_from exceeds rc data) = length data.
Proof.
  induction data as [| v data IH]; intros rc; [reflexivity |].
  cbn [detect_from].
  destruct (0 <? rc); [| destruct (exceeds v)]; cbn [length]; rewrite IH;
    reflexivity.
Qed.

Lemma length_detect_spikes (data : list sample) :
  length (detect_spikes exceeds data) = length data.
Proof.
  rewrite detect_spikes_layout, length_app, repeat_length, length_detect_from,
    length_skipn.
  lia.
Qed.

Lemma detect_from_quiet (v : sample) (n : nat) :
  exceeds v = false -> detect_from exceeds 0 (repeat v n) = repeat false n.
Proof.
  intros Hv. induction n as [| n IH]; [reflexivity |].
  cbn [repeat detect_from]. rewrite Hv, IH. reflexivity.
Qed.

Lemma detect_spikes_quiet_300 (v : sample) :
  exceeds v = false -> detect_spikes exceeds (repeat v 300) = repeat false 300.
Proof.
  intros Hv. rewrite detect_spikes_layout, repeat_length.
  change (skipn window_size (repeat v 300)) with (repeat v 268).
  rewrite (detect_from_quiet v 268 Hv). reflexivity.
Qed.

Lemma detect_spikes_first_two (v0 v1 : sample) (tail : list sample) :
  exists ftail : list bool,
    detect_spikes exceeds (v0 :: v1 :: tail) = false :: false :: ftail.
Proof.
  rewrite detect_spikes_layout. cbn [length].
  change window_size with (S (S 30)).
  rewrite <- !Nat.succ_min_distr. cbn [repeat app].
  eexists. reflexivity.
Qed.

End DetectorLength.

Lemma Qcltb_lt (x y : Qc) : (x < y)%Qc -> Qcltb x y = true.
Proof.
  intros H. unfold Qcltb. rewrite (proj1 (Qclt_alt x y) H). reflexivity.
Qed.

Lemma Qcltb_gt (x y : Qc) : (y < x)%Qc -> Qcltb x y = false.
Proof.
  intros H. unfold Qcltb. rewrite (proj1 (Qcgt_alt x y) H). reflexivity.
Qed.

Lemma thresholds_ordered : (rle_threshold < spike_threshold)%Qc.
Proof. apply Qclt_alt. reflexivity. Qed.

Lemma below_rle_zero_delta (v : Qc) : below_rle (v - v) = true.
Proof. replace (v - v)%Qc with 0%Qc by ring. reflexivity. Qed.

Lemma below_rle_first (v : Qc) :
  (Qcabs v < rle_threshold)%Qc -> below_rle (v - 0) = true.
Proof.
  intros Hv. replace (v - 0)%Qc with v by ring. apply Qcltb_lt. exact Hv.
Qed.

Lemma exceeds_spike_small (v : Qc) :
  (Qcabs v < rle_threshold)%Qc -> exceeds_spike v = false.
Proof.
  intros Hv. apply Qcltb_gt.
  apply Qclt_trans with rle_threshold; [exact Hv | exact thresholds_ordered].
Qed.

(** C3, amended.  When the filtered sequence of an input is 300 times the
    same value [v] with [|v| < rle_threshold] (as for 300 zero samples),
    the pipeline produces exactly two packets, both run-length packets: the
    first with count 255, the second with count 45. *)
Theorem process_constant_filtered (input_data : list Qc) (v : Qc) :
  filter_signal input_data = repeat v 300 ->
  (Qcabs v < rle_threshold)%Qc ->
  exists r : Results,
    process input_data = Some r /\
    compressed r = [RunLength 255 v; RunLength 45 v].
Proof.
  intros Hfilt Hv. unfold process. rewrite Hfilt.
  unfold detect_spikes_float, compress_signal_float.
  rewrite (detect_spikes_quiet_300 exceeds_spike v (exceeds_spike_small v Hv)).
  rewrite (compress_signal_constant_300 below_rle Qcminus 0%Qc v
             (below_rle_first v Hv) (below_rle_zero_delta v)).
  eexists. split; reflexivity.
Qed.

Lemma filter_signal_zero_300 :
  filter_signal (repeat (to_float 0) 300) = repeat 0%Qc 300.
Proof. apply map_this_inj. vm_compute. reflexivity. Qed.

Lemma process_constant_filtered_witness :
  exists r : Results,
    process (repeat (to_float 0) 300) = Some r /\
    compressed r = [RunLength 255 0%Qc; RunLength 45 0%Qc].
Proof.
  apply (process_constant_filtered (repeat (to_float 0) 300) 0%Qc).
  - exact filter_signal_zero_300.
  - apply Qclt_alt. reflexivity.
Defined.

(** The filter is causal: the outputs for a prefix of the input do not
    depend on what follows. *)
Lemma df2t_run_prefix (b a : list Qc) (xs1 xs2 : list Qc) :
  forall z : list Qc,
    exists tail : list Qc,
      df2t_run b a z (xs1 ++ xs2) = df2t_run b a z xs1 ++ tail /\
      length tail = length xs2.
Proof.
  induction xs1 as [| x xs1 IH]; intros z.
  - exists (df2t_run b a z xs2). split; [reflexivity |].
    revert z. induction xs2 as [| x xs2 IH2]; intros z; [reflexivity |].
    cbn [df2t_run length]. rewrite IH2. reflexivity.
  - cbn [app df2t_run].
    destruct (IH (df2t_update (tl b) (tl a) z x (hd 0 b * x + hd 0 z)%Qc))
      as (tail & Heq & Hlen).
    exists tail. rewrite Heq. split; [reflexivity | exact Hlen].
Qed.

Lemma filter_signal_prefix (xs1 xs2 : list Qc) :
  exists tail : list Qc,
    filter_signal (xs1 ++ xs2) = filter_signal xs1 ++ tail /\
    length tail = length xs2.
Proof. unfold filter_signal, lfilter. apply df2t_run_prefix. Qed.

(** A small first value followed by a large step: the run opened by the
    first sample is emitted with count 1, then a delta packet follows. *)
Lemma encode_run_then_delta (y0 y1 : Qc) (tail : list Qc) (ftail : list bool) :
  below_rle (y0 - 0) = true ->
  below_rle (y1 - 0) = false ->
  exists rest : list (Packet Qc),
    snd (encode_all below_rle Qcminus (encoder_init 0%Qc)
           (y0 :: y1 :: tail) (false :: false :: ftail))
    = RunLength 1 y0 :: Delta (y1 - 0)%Qc :: rest.
Proof.
  intros H0 H1. cbn [encode_all]. unfold compress_step at 1.
  cbn [encoder_init prev_value in_run run_count run_value negb]. rewrite H0.
  change (max_run_length <=? 1) with false. cbv iota.
  unfold compress_step at 1, emit_pending.
  cbn [prev_value in_run run_count run_value negb andb]. rewrite H1.
  change (0 <? 1) with true. cbv iota.
  cbn [prev_value in_run run_count run_value].
  destruct (encode_all _ _ _ tail ftail) as [st out].
  eexists. reflexivity.
Qed.

(** C3, as stated, fails: on 300 samples all equal to 1.0 (raw
    [0x00010000]) the first filtered value is small and the second one is
    far from it, so the packet stream starts with a run of one sample
    followed by a delta packet. *)
Lemma process_constant_input_counterexample :
  exists (r : Results) (d : Qc) (rest : list (Packet Qc)),
    process (repeat (to_float 0x00010000) 300) = Some r /\
    compressed r = RunLength 1 (to_float 0x00000D6B) :: Delta d :: rest.
Proof.
  set (x := to_float 0x00010000).
  unfold process, compress_signal_float, detect_spikes_float.
  rewrite compress_signal_encode_all by apply length_detect_spikes.
  change (repeat x 300) with ([x; x] ++ repeat x 298).
  destruct (filter_signal_prefix [x; x] (repeat x 298)) as (tail & Heq & Hlen).
  rewrite Heq. clear Heq.
  assert (Hy : exists y0 y1, filter_signal [x; x] = [y0; y1] /\
                 y0 = to_float 0x00000D6B /\
                 below_rle (y0 - 0) = true /\ below_rle (y1 - 0) = false).
  { eexists. eexists. split; [reflexivity |]. split.
    - apply Qc_is_canon. vm_compute. reflexivity.
    - split; vm_compute; reflexivity. }
  destruct Hy as (y0 & y1 & Hf & Hy0 & Hb0 & Hb1). rewrite Hf. subst y0.
  cbn [app].
  destruct (detect_spikes_first_two exceeds_spike (to_float 0x00000D6B) y1 tail)
    as (ftail & Hflags).
  rewrite Hflags.
  destruct (encode_run_then_delta _ y1 tail ftail Hb0 Hb1) as (rest & Hrest).
  rewrite Hrest. cbn [app].
  eexists. eexists. eexists. split; reflexivity.
Qed.

(** ** The sample file *)

Local Open Scope string_scope.

(** Character facts, by enumeration of the 256 characters. *)
Lemma hex_upper_digit_class (c : ascii) :
  is_hex_upper_digit c = true ->
  is_space c = false /\
  Ascii.eqb c newline = false /\
  Ascii.eqb c carriage_return = false /\
  Ascii.eqb c "_" = false /\
  Ascii.eqb c "+" = false /\
  Ascii.eqb c "-" = false /\
  Ascii.eqb c "x" = false /\
  Ascii.eqb c "X" = false /\
  exists d : Z, hex_digit_value c = Some d /\ (0 <= d < 16)%Z.
Proof.
  destruct c as [[] [] [] [] [] [] [] []]; intros H; vm_compute in H;
    try discriminate H;
    repeat (split; [reflexivity |]);
    eexists; (split; [vm_compute; reflexivity | lia]).
Qed.

Lemma hex_digit_upper_ok (d : Z) :
  (0 <= d < 16)%Z ->
  is_hex_upper_digit (hex_digit_upper d) = true /\
  hex_digit_value (hex_digit_upper d) = Some d.
Proof.
  intros Hd.
  assert (Hcases : (d = 0 \/ d = 1 \/ d = 2 \/ d = 3 \/ d = 4 \/ d = 5 \/ d = 6
                    \/ d = 7 \/ d = 8 \/ d = 9 \/ d = 10 \/ d = 11 \/ d = 12
                    \/ d = 13 \/ d = 14 \/ d = 15)%Z) by lia.
  repeat (destruct Hcases as [-> | Hcases]; [split; reflexivity |]).
  subst d. split; reflexivity.
Qed.

Lemma all_hex_upper_app (s1 s2 : string) :
  all_hex_upper s1 -> all_hex_upper s2 -> all_hex_upper (s1 ++ s2).
Proof.
  induction s1 as [| c s1 IH]; intros H1 H2; [exact H2 |].
  destruct H1 as [Hc H1]. split; [exact Hc | apply IH; assumption].
Qed.

Lemma hex_val_app (s1 s2 : string) :
  forall acc : Z, hex_val (s1 ++ s2) acc = hex_val s2 (hex_val s1 acc).
Proof.
  induction s1 as [| c s1 IH]; intros acc; [reflexivity |].
  cbn [append hex_val]. apply IH.
Qed.

Lemma length_append (s1 s2 : string) :
  String.length (s1 ++ s2) = (String.length s1 + String.length s2)%nat.
Proof.
  induction s1 as [| c s1 IH]; [reflexivity |].
  cbn [append String.length]. rewrite IH. reflexivity.
Qed.

Lemma append_assoc (s1 s2 s3 : string) : (s1 ++ s2) ++ s3 = s1 ++ (s2 ++ s3).
Proof.
  induction s1 as [| c s1 IH]; [reflexivity |].
  cbn [append]. rewrite IH. reflexivity.
Qed.

(** The digits produced for [n]: upper-case hexadecimal, of value [n], and
    as many as [n] needs. *)
Lemma hex_upper_aux_spec (fuel : nat) :
  forall (n : Z) (acc : string),
    (0 <= n < 16 ^ Z.of_nat fuel)%Z -> (1 <= fuel)%nat ->
    exists ds : string,
      hex_upper_aux fuel n acc = ds ++ acc /\
      all_hex_upper ds /\
      hex_val ds 0 = n /\
      (1 <= String.length ds)%nat /\
      (n < 16 ^ Z.of_nat (String.length ds))%Z /\
      (String.length ds = 1%nat \/ 16 ^ (Z.of_nat (String.length ds) - 1) <= n)%Z.
Proof.
  induction fuel as [| fuel IH]; intros n acc Hn Hfuel; [lia |].
  cbn [hex_upper_aux].
  assert (Hd : (0 <= n mod 16 < 16)%Z) by (apply Z.mod_pos_bound; lia).
  destruct (hex_digit_upper_ok _ Hd) as [Hclass Hvalue].
  destruct (Z.eqb_spec (n / 16) 0) as [Hq | Hq].
  - exists (String (hex_digit_upper (n mod 16)) "").
    assert (Hsmall : (n = n mod 16)%Z).
    { pose proof (Z.div_mod n 16 ltac:(lia)). lia. }
    cbn [append all_hex_upper hex_val String.length].
    rewrite Hvalue. repeat split; try assumption; try lia.
  - assert (Hq' : (0 < n / 16)%Z).
    { pose proof (Z.div_pos n 16 ltac:(lia) ltac:(lia)). lia. }
    assert (Hpow : (16 ^ Z.of_nat (S fuel) = 16 * 16 ^ Z.of_nat fuel)%Z).
    { rewrite Nat2Z.inj_succ, Z.pow_succ_r by lia. reflexivity. }
    destruct fuel as [| fuel'].
    { cbn in Hn. pose proof (Z.div_small n 16 ltac:(lia)). lia. }
    destruct (IH (n / 16)%Z (String (hex_digit_upper (n mod 16)) acc))
      as (ds & Heq & Hall & Hval & Hlen1 & Hup & Hlow).
    { split; [lia |]. apply Z.div_lt_upper_bound; lia. }
    { lia. }
    exists (ds ++ String (hex_digit_upper (n mod 16)) "").
    rewrite Heq, append_assoc. cbn [append].
    split; [reflexivity |].
    split; [apply all_hex_upper_app; [assumption | split; [assumption | exact I]] |].
    rewrite hex_val_app, Hval. cbn [hex_val]. rewrite Hvalue.
    rewrite length_append. cbn [String.length].
    replace (Z.of_nat (String.length ds + 1)) with (Z.succ (Z.of_nat (String.length ds)))
      by lia.
    rewrite Z.pow_succ_r by lia.
    pose proof (Z.div_mod n 16 ltac:(lia)) as Hdm.
    split; [lia |]. split; [lia |]. split; [lia |].
    right.
    replace (Z.succ (Z.of_nat (String.length ds)) - 1)%Z
      with (Z.of_nat (String.length ds)) by lia.
    destruct Hlow as [Hone | Hge].
    + rewrite Hone. change (16 ^ Z.of_nat 1)%Z with 16%Z. lia.
    + replace (Z.of_nat (String.length ds))
        with (Z.succ (Z.of_nat (String.length ds) - 1)) by lia.
      rewrite Z.pow_succ_r by lia. lia.
Qed.

Lemma zeros_spec (k : nat) :
  all_hex_upper (zeros k) /\ hex_val (zeros k) 0 = 0%Z /\
  String.length (zeros k) = k.
Proof.
  induction k as [| k (Hall & Hval & Hlen)]; [repeat split |].
  cbn [zeros all_hex_upper hex_val String.length].
  repeat split; [assumption | exact Hval | rewrite Hlen; reflexivity].
Qed.

Lemma append_empty_r (s : string) : s ++ "" = s.
Proof.
  induction s as [| c s IH]; [reflexivity |].
  cbn [append]. rewrite IH. reflexivity.
Qed.

(** The fuel of [hex_upper] is enough for every non-negative integer. *)
Lemma hex_upper_spec (n : Z) :
  (0 <= n)%Z ->
  all_hex_upper (hex_upper n) /\
  hex_val (hex_upper n) 0 = n /\
  (1 <= String.length (hex_upper n))%nat /\
  (String.length (hex_upper n) = 1%nat
   \/ 16 ^ (Z.of_nat (String.length (hex_upper n)) - 1) <= n)%Z.
Proof.
  intros Hn. unfold hex_upper.
  assert (Hfuel : (n < 16 ^ Z.of_nat (S (Z.to_nat (Z.log2 n))))%Z).
  { rewrite Nat2Z.inj_succ, Z2Nat.id by apply Z.log2_nonneg.
    destruct (Z.eq_dec n 0) as [-> | Hnz]; [reflexivity |].
    pose proof (Z.log2_spec n ltac:(lia)) as [_ Hup].
    pose proof (Z.log2_nonneg n) as Hlog.
    apply Z.lt_le_trans with (1 := Hup).
    apply Z.pow_le_mono_l. lia. }
  destruct (hex_upper_aux_spec (S (Z.to_nat (Z.log2 n))) n "" ltac:(lia) ltac:(lia))
    as (ds & Heq & Hall & Hval & Hlen1 & _ & Hlow).
  rewrite Heq, append_empty_r. repeat split; assumption.
Qed.

(** A 32-bit pattern is written as exactly 8 upper-case hexadecimal digits
    whose value is the pattern. *)
Lemma format_08X_spec (n : Z) :
  (0 <= n < 2 ^ 32)%Z ->
  all_hex_upper (format_08X n) /\
  hex_val (format_08X n) 0 = n /\
  String.length (format_08X n) = 8%nat.
Proof.
  intros Hn. unfold format_08X.
  destruct (hex_upper_spec n ltac:(lia)) as (Hall & Hval & Hlen1 & Hlow).
  set (ds := hex_upper n) in *.
  assert (Hlen8 : (String.length ds <= 8)%nat).
  { destruct Hlow as [Hone | Hge]; [lia |].
    assert (Hlt : (16 ^ (Z.of_nat (String.length ds) - 1) < 16 ^ 8)%Z)
      by (change (16 ^ 8)%Z with (2 ^ 32)%Z; lia).
    apply Z.pow_lt_mono_r_iff in Hlt; lia. }
  destruct (zeros_spec (8 - String.length ds)) as (Hzall & Hzval & Hzlen).
  split; [apply all_hex_upper_app; assumption |].
  split.
  - rewrite hex_val_app, Hzval. exact Hval.
  - rewrite length_append, Hzlen. lia.
Qed.

(** *** Reading back *)

Lemma no_cr_app (s1 s2 : string) : no_cr s1 -> no_cr s2 -> no_cr (s1 ++ s2).
Proof.
  induction s1 as [| c s1 IH]; intros H1 H2; [exact H2 |].
  destruct H1 as [Hc H1]. split; [exact Hc | apply IH; assumption].
Qed.

Lemma all_hex_upper_no_cr (s : string) : all_hex_upper s -> no_cr s.
Proof.
  induction s as [| c s IH]; intros H; [exact I |].
  destruct H as [Hc H]. split; [| apply IH; exact H].
  apply (hex_upper_digit_class c Hc).
Qed.

Lemma universal_newlines_no_cr (s : string) :
  no_cr s -> universal_newlines s = s.
Proof.
  induction s as [| c s IH]; intros H; [reflexivity |].
  destruct H as [Hc H]. cbn [universal_newlines]. rewrite Hc, (IH H).
  reflexivity.
Qed.

Lemma lines_from_line (h : string) :
  forall (cur rest : string),
    all_hex_upper h ->
    lines_from cur (h ++ String newline rest)
    = (cur ++ h ++ String newline "") :: lines_from "" rest.
Proof.
  induction h as [| c h IH]; intros cur rest Hall.
  - cbn [append lines_from]. rewrite Ascii.eqb_refl. reflexivity.
  - destruct Hall as [Hc Hall]. cbn [append lines_from].
    destruct (hex_upper_digit_class c Hc) as (_ & Hnl & _). rewrite Hnl.
    rewrite (IH _ rest Hall), append_assoc. reflexivity.
Qed.

Lemma lstrip_hex (c : ascii) (s : string) :
  is_hex_upper_digit c = true -> lstrip (String c s) = String c s.
Proof.
  intros Hc. cbn [lstrip].
  destruct (hex_upper_digit_class c Hc) as (Hsp & _). rewrite Hsp. reflexivity.
Qed.

Lemma rstrip_hex_line (h : string) :
  all_hex_upper h -> rstrip (h ++ String newline "") = h.
Proof.
  induction h as [| c h IH]; intros Hall; [reflexivity |].
  destruct Hall as [Hc Hall]. cbn [append rstrip]. rewrite (IH Hall).
  destruct (hex_upper_digit_class c Hc) as (Hsp & _). rewrite Hsp.
  destruct h; reflexivity.
Qed.

Lemma int16_digits_hex (h : string) :
  forall acc : Z,
    all_hex_upper h -> int16_digits h acc false = Some (hex_val h acc).
Proof.
  induction h as [| c h IH]; intros acc Hall; [reflexivity |].
  destruct Hall as [Hc Hall]. cbn [int16_digits hex_val].
  destruct (hex_upper_digit_class c Hc)
    as (_ & _ & _ & Hus & _ & _ & _ & _ & d & Hd & _).
  rewrite Hus, Hd. apply IH. exact Hall.
Qed.

Lemma int16_hex (c : ascii) (h : string) :
  all_hex_upper (String c h) -> int16 (String c h) = Some (hex_val (String c h) 0).
Proof.
  intros Hall. pose proof Hall as [Hc Hh].
  destruct (hex_upper_digit_class c Hc)
    as (_ & _ & _ & Hus & Hplus & Hminus & _).
  unfold int16. rewrite Hplus, Hminus. unfold int16_unsigned.
  assert (Hbody :
    match String c h with
    | String c0 (String x rest) =>
        if Ascii.eqb c0 "0" && (Ascii.eqb x "x" || Ascii.eqb x "X") then
          match rest with
          | String u rest' => if Ascii.eqb u "_" then rest' else rest
          | "" => rest
          end
        else String c h
    | _ => String c h
    end = String c h).
  { destruct h as [| x rest]; [reflexivity |].
    destruct Hh as [Hx _].
    destruct (hex_upper_digit_class x Hx) as (_ & _ & _ & _ & _ & _ & Hlx & Hux & _).
    rewrite Hlx, Hux, andb_false_r. reflexivity. }
  rewrite Hbody, Hus. apply int16_digits_hex. exact Hall.
Qed.

(** The sign conversion of the reader undoes the mask of the writer. *)
Lemma signed_of_masked (v : Z) :
  in_int32 v ->
  (if Z.eqb (Z.land (Z.land v 0xFFFFFFFF) 0x80000000) 0
   then Z.land v 0xFFFFFFFF
   else Z.land v 0xFFFFFFFF - 0x100000000)%Z = v.
Proof.
  unfold in_int32. intros Hv. rewrite land_low32, sign_test_bit31.
  destruct (Z.lt_ge_cases v 0) as [Hneg | Hpos].
  - assert (Hm : (v mod 2 ^ 32 = v + 2 ^ 32)%Z).
    { symmetry. apply Z.mod_unique with (q := (-1)%Z); lia. }
    rewrite Hm, testbit31_high by lia. cbn [negb]. lia.
  - rewrite Z.mod_small, testbit31_low by lia. reflexivity.
Qed.

Lemma masked_range (v : Z) : (0 <= Z.land v 0xFFFFFFFF < 2 ^ 32)%Z.
Proof. rewrite land_low32. apply Z.mod_pos_bound. lia. Qed.

Lemma write_mem_file_no_cr (data : list Z) : no_cr (write_mem_file data).
Proof.
  induction data as [| v data IH]; [exact I |].
  cbn [write_mem_file]. apply no_cr_app.
  - apply all_hex_upper_no_cr. apply format_08X_spec. apply masked_range.
  - split; [reflexivity | exact IH].
Qed.

Lemma file_lines_written (data : list Z) :
  file_lines (write_mem_file data) = map written_line data.
Proof.
  unfold file_lines.
  rewrite universal_newlines_no_cr by apply write_mem_file_no_cr.
  induction data as [| v data IH]; [reflexivity |].
  cbn [write_mem_file map].
  rewrite lines_from_line by (apply format_08X_spec; apply masked_range).
  rewrite IH. reflexivity.
Qed.

Lemma strip_written_line (v : Z) :
  strip (written_line v) = format_08X (Z.land v 0xFFFFFFFF) /\
  exists c h, format_08X (Z.land v 0xFFFFFFFF) = String c h.
Proof.
  destruct (format_08X_spec _ (masked_range v)) as (Hall & _ & Hlen).
  unfold written_line, strip.
  destruct (format_08X (Z.land v 0xFFFFFFFF)) as [| c h] eqn:E;
    [discriminate Hlen |].
  split; [| exists c, h; reflexivity].
  change (String c h ++ String newline "") with (String c (h ++ String newline "")).
  rewrite lstrip_hex by apply Hall.
  change (String c (h ++ String newline "")) with (String c h ++ String newline "").
  apply rstrip_hex_line. exact Hall.
Qed.

Lemma load_lines_written (data : list Z) :
  forall acc : list Z,
    Forall in_int32 data ->
    load_lines (map written_line data) acc = Some (acc ++ data)%list.
Proof.
  induction data as [| v data IH]; intros acc Hrange.
  - cbn. rewrite app_nil_r. reflexivity.
  - inversion Hrange as [| v' data' Hv Hdata]; subst.
    cbn [map load_lines].
    destruct (strip_written_line v) as (Hstrip & c & h & Hform).
    destruct (format_08X_spec _ (masked_range v)) as (Hall & Hval & _).
    rewrite Hstrip, Hform. rewrite Hform in Hall, Hval.
    rewrite (int16_hex c h Hall), Hval. cbv zeta.
    rewrite (signed_of_masked v Hv).
    rewrite (IH _ Hdata), <- app_assoc. reflexivity.
Qed.

Lemma pattern_of_to_float (v : Z) :
  in_int32 v -> pattern_of_float (to_float v) = Z.land v 0xFFFFFFFF.
Proof.
  unfold in_int32, pattern_of_float. intros Hv.
  destruct (Z.lt_ge_cases v 0) as [Hneg | Hpos].
  - rewrite to_float_negative_raw, to_fixed_scaled by lia.
    rewrite !land_low32.
    replace (v - 2 ^ 32)%Z with (v + (-1) * 2 ^ 32)%Z by lia.
    apply Z_mod_plus_full.
  - rewrite to_float_pattern, to_fixed_scaled, wrap32_low by lia.
    destruct (Z.ltb_spec v (2 ^ 31)); [reflexivity | lia].
Qed.

(** C9.  Writing in-range 32-bit samples and reading the file back gives
    the original sequence of raw values: every line written holds the 8
    upper-case hexadecimal digits of the sample's unsigned 32-bit pattern,
    the reading loop (parse, reinterpret as signed) rebuilds the list, and
    the floats finally returned still carry the same 32-bit patterns. *)
Theorem mem_file_round_trip (data : list Z) :
  Forall in_int32 data ->
  load_eeg_mem_data (write_mem_file data) = Some data /\
  Forall2
    (fun line v =>
       exists h, line = h ++ String newline "" /\ String.length h = 8%nat /\
                 all_hex_upper h /\ hex_val h 0 = Z.land v 0xFFFFFFFF)
    (file_lines (write_mem_file data)) data /\
  exists floats : list Qc,
    load_eeg_mem_file (write_mem_file data) = Some floats /\
    map pattern_of_float floats = map (fun v => Z.land v 0xFFFFFFFF) data.
Proof.
  intros Hrange.
  assert (Hload : load_eeg_mem_data (write_mem_file data) = Some data).
  { unfold load_eeg_mem_data. rewrite file_lines_written.
    apply (load_lines_written data [] Hrange). }
  split; [exact Hload |]. split.
  - rewrite file_lines_written. clear Hload Hrange.
    induction data as [| v data IH]; [constructor |].
    cbn [map]. constructor; [| exact IH].
    destruct (format_08X_spec _ (masked_range v)) as (Hall & Hval & Hlen).
    exists (format_08X (Z.land v 0xFFFFFFFF)). repeat split; assumption.
  - unfold load_eeg_mem_file. rewrite Hload. cbn [option_map].
    eexists. split; [reflexivity |].
    rewrite map_map. clear Hload.
    induction Hrange as [| v data Hv Hdata IH]; [reflexivity |].
    cbn [map]. rewrite IH, (pattern_of_to_float v Hv). reflexivity.
Qed.

Lemma mem_file_round_trip_witness :
  load_eeg_mem_data (write_mem_file [0x00010000; - 0x0000A5A6; - 2 ^ 31; 2 ^ 31 - 1])
  = Some [0x00010000; - 0x0000A5A6; - 2 ^ 31; 2 ^ 31 - 1]%Z.
Proof.
  apply (mem_file_round_trip [0x00010000; - 0x0000A5A6; - 2 ^ 31; 2 ^ 31 - 1]%Z).
  repeat constructor; unfold in_int32; lia.
Defined.

Local Close Scope string_scope.

(** * Further properties of the model *)

(** ** The multiplier beyond 32-bit operands *)

Lemma wrap32_range (x : Z) : - 2 ^ 31 <= wrap32 x < 2 ^ 31.
Proof.
  unfold wrap32, wrap. change (32 - 1) with 31.
  pose proof (Z.mod_pos_bound (x + 2 ^ 31) (2 ^ 32) ltac:(lia)). lia.
Qed.

Lemma wrap32_mod (x : Z) : wrap32 (x mod 2 ^ 32) = wrap32 x.
Proof.
  unfold wrap32, wrap. change (32 - 1) with 31.
  rewrite Zplus_mod_idemp_l. reflexivity.
Qed.

Lemma wrap32_small (x : Z) : - 2 ^ 31 <= x < 2 ^ 31 -> wrap32 x = x.
Proof.
  intros Hx. unfold wrap32, wrap. change (32 - 1) with 31.
  rewrite Z.mod_small; lia.
Qed.

Lemma np_int64_some (a : Z) :
  (exists r, np_int64 a = Some r) <-> - 2 ^ 63 <= a < 2 ^ 63.
Proof.
  unfold np_int64, INT64_MIN, INT64_MAX.
  destruct (Z.leb_spec (- 2 ^ 63) a) as [Hlo | Hlo];
    destruct (Z.leb_spec a (2 ^ 63 - 1)) as [Hhi | Hhi];
    cbn [andb]; split; intros Hx; try lia;
    try (destruct Hx as [r Hx]; discriminate Hx);
    eexists; reflexivity.
Qed.

(** X1.  [mult] raises exactly when an operand does not fit [int64]; on
    all other operands, of any size up to 64 bits, it returns a value in
    the signed 32-bit range. *)
Theorem mult_defined_and_bounded (a b : Z) :
  (mult a b = None <->
   ~ (- 2 ^ 63 <= a < 2 ^ 63 /\ - 2 ^ 63 <= b < 2 ^ 63)) /\
  (forall r : Z, mult a b = Some r -> - 2 ^ 31 <= r < 2 ^ 31).
Proof.
  unfold mult.
  pose proof (np_int64_some a) as Ha. pose proof (np_int64_some b) as Hb.
  destruct (np_int64 a) as [a' |] eqn:Ea; destruct (np_int64 b) as [b' |] eqn:Eb.
  - split.
    + split; [discriminate |]. intros Hn. exfalso. apply Hn. split.
      * apply Ha. eexists. reflexivity.
      * apply Hb. eexists. reflexivity.
    + intros r Hr. injection Hr as <-. apply wrap32_range.
  - split; [| discriminate]. split; [| reflexivity].
    intros _ [_ Hbr]. apply Hb in Hbr. destruct Hbr as [r Hr]. discriminate Hr.
  - split; [| discriminate]. split; [| reflexivity].
    intros _ [Har _]. apply Ha in Har. destruct Har as [r Hr]. discriminate Hr.
  - split; [| discriminate]. split; [| reflexivity].
    intros _ [Har _]. apply Ha in Har. destruct Har as [r Hr]. discriminate Hr.
Qed.

Lemma mult_defined_and_bounded_witness :
  mult (2 ^ 62) 3 = Some 0 /\ - 2 ^ 31 <= 0 < 2 ^ 31 /\ mult (2 ^ 63) 1 = None.
Proof.
  assert (H : mult (2 ^ 62) 3 = Some 0) by reflexivity.
  split; [exact H |]. split.
  - exact (proj2 (mult_defined_and_bounded (2 ^ 62) 3) 0 H).
  - apply (proj1 (mult_defined_and_bounded (2 ^ 63) 1)). lia.
Defined.

Lemma mult_in_int32 (a b : Z) :
  - 2 ^ 31 <= a < 2 ^ 31 -> - 2 ^ 31 <= b < 2 ^ 31 ->
  mult a b = Some (wrap32 (a * b / 2 ^ 16)).
Proof.
  intros Ha Hb. unfold mult.
  rewrite !np_int64_in_range by lia.
  rewrite wrap64_small by nia.
  rewrite Z.shiftr_div_pow2 by lia.
  unfold np_int32_of_int64. rewrite land_low32, wrap32_mod. reflexivity.
Qed.

(** X2.  When the exact product of two 32-bit operands, shifted right by
    16, fits 32 bits, [mult] returns it: the Q16.16 product rounded toward
    minus infinity, less than one unit below the exact value. *)
Theorem mult_exact_when_fits (a b : Z) :
  - 2 ^ 31 <= a < 2 ^ 31 -> - 2 ^ 31 <= b < 2 ^ 31 ->
  - 2 ^ 31 <= a * b / 2 ^ 16 < 2 ^ 31 ->
  exists r : Z,
    mult a b = Some r /\ r = a * b / 2 ^ 16 /\
    65536 * r <= a * b < 65536 * (r + 1).
Proof.
  intros Ha Hb Hfit. exists (a * b / 2 ^ 16).
  split; [| split; [reflexivity |]].
  - rewrite mult_in_int32 by assumption. rewrite wrap32_small by assumption.
    reflexivity.
  - change (2 ^ 16) with 65536.
    pose proof (Z.div_mod (a * b) 65536 ltac:(lia)).
    pose proof (Z.mod_pos_bound (a * b) 65536 ltac:(lia)). lia.
Qed.

Lemma mult_exact_when_fits_witness :
  exists r : Z,
    mult (- 0x00018000) 0x00000003 = Some r /\
    r = - 0x00018000 * 0x00000003 / 2 ^ 16 /\
    65536 * r <= - 0x00018000 * 0x00000003 < 65536 * (r + 1).
Proof.
  apply (mult_exact_when_fits (- 0x00018000) 0x00000003).
  - lia.
  - lia.
  - split; vm_compute; congruence.
Defined.

(** X3.  The Q16.16 constant 1.0 ([0x00010000]) is neutral for [mult] on
    32-bit values, on either side, and multiplying by zero gives zero. *)
Theorem mult_one_and_zero (a : Z) :
  - 2 ^ 31 <= a < 2 ^ 31 ->
  mult a 0x00010000 = Some a /\ mult 0x00010000 a = Some a /\
  mult a 0 = Some 0 /\ mult 0 a = Some 0.
Proof.
  intros Ha.
  rewrite !mult_in_int32 by lia.
  rewrite Z.mul_0_r, Z.mul_0_l.
  replace (0x00010000 * a) with (a * 0x00010000) by lia.
  change 0x00010000 with (2 ^ 16). rewrite Z.div_mul by lia.
  rewrite wrap32_small by assumption.
  repeat split; reflexivity.
Qed.

Lemma mult_one_and_zero_witness :
  mult (- 0x0000A5A6) 0x00010000 = Some (- 0x0000A5A6).
Proof. apply (mult_one_and_zero (- 0x0000A5A6)). lia. Defined.

(** ** Quantisation by [to_fixed] *)

Lemma np_round_bounds (r : Qc) :
  (inject_Z (np_round r) - r <= 1 # 2)%Q /\
  (- (1 # 2) <= inject_Z (np_round r) - r)%Q.
Proof.
  unfold np_round.
  pose proof (Qfloor_le r) as Hlo. pose proof (Qlt_floor r) as Hhi.
  rewrite inject_Z_plus in Hhi. change (inject_Z 1) with 1%Q in Hhi.
  set (f := Qfloor r) in *.
  assert (Hcmp : ((r - Z2Qc f ?= Q2Qc (1 # 2))%Qc
                  = (r - inject_Z f ?= 1 # 2)%Q)).
  { unfold Qccompare, Qcminus, Qcplus, Qcopp, Z2Qc, Q2Qc. cbn [this].
    rewrite !Qred_correct. reflexivity. }
  rewrite Hcmp.
  destruct (r - inject_Z f ?= 1 # 2)%Q eqn:E.
  - apply Qeq_alt in E.
    destruct (Z.even f); rewrite ?inject_Z_plus;
      change (inject_Z 1) with 1%Q; split; lra.
  - apply Qlt_alt in E. split; lra.
  - apply Qgt_alt in E. rewrite inject_Z_plus.
    change (inject_Z 1) with 1%Q. split; lra.
Qed.

Lemma to_fixed_half_unit (x : Qc) :
  (Qcabs (Z2Qc (to_fixed x) - x * Z2Qc 65536) <= Q2Qc (1 # 2))%Qc.
Proof.
  apply Qcabs_Qcle_condition.
  unfold to_fixed. change (Z.shiftl 1 16) with 65536.
  destruct (np_round_bounds (x * Z2Qc 65536)%Qc) as [Hup Hlo].
  set (n := np_round (x * Z2Qc 65536)%Qc) in *.
  set (r := (x * Z2Qc 65536)%Qc) in *.
  unfold Qcle, Qcminus, Qcplus, Qcopp, Z2Qc, Q2Qc. cbn [this].
  rewrite !Qred_correct. split; lra.
Qed.

(** X4.  [to_fixed] rounds to nearest.  On a float [x] of magnitude at
    most [2^1007], where the scaled value is finite and the program
    computes it exactly, the result is within half a unit of [x * 65536];
    and for an integer [v] of magnitude at most [2^53], where [v / 65536]
    is a float, that float is converted to [v] itself. *)
Theorem to_fixed_nearest (x : Qc) (v : Z) :
  (Qcabs x <= Z2Qc (2 ^ 1007))%Qc ->
  - 2 ^ 53 <= v <= 2 ^ 53 ->
  (Qcabs (Z2Qc (to_fixed x) - x * Z2Qc 65536) <= Q2Qc (1 # 2))%Qc /\
  to_fixed (Z2Qc v / Z2Qc 65536)%Qc = v.
Proof.
  intros _ _. split; [apply to_fixed_half_unit |].
  change 65536 with (Z.shiftl 1 16). apply to_fixed_scaled.
Qed.

Lemma to_fixed_nearest_witness :
  (Qcabs (Z2Qc (to_fixed (Q2Qc (3 # 8))) - Q2Qc (3 # 8) * Z2Qc 65536)
   <= Q2Qc (1 # 2))%Qc /\
  to_fixed (Z2Qc (- 0x0000A5A6) / Z2Qc 65536)%Qc = - 0x0000A5A6.
Proof.
  apply (to_fixed_nearest (Q2Qc (3 # 8)) (- 0x0000A5A6)).
  - apply Qcle_alt. vm_compute. discriminate.
  - lia.
Defined.

Lemma to_float_nonneg (n : Z) :
  0 <= n < 2 ^ 31 -> to_float n = (Z2Qc n / Z2Qc 65536)%Qc.
Proof.
  intros Hn. rewrite to_float_pattern by lia. rewrite wrap32_small by lia.
  reflexivity.
Qed.

(** X5.  Quantisation error: when [to_fixed x] is a non-negative 32-bit
    value, converting it back with [to_float] gives a float within
    [2^-17] of [x]. *)
Theorem to_float_to_fixed_error (x : Qc) :
  0 <= to_fixed x < 2 ^ 31 ->
  (Qcabs (to_float (to_fixed x) - x) <= Q2Qc (1 # 131072))%Qc.
Proof.
  intros Hn. rewrite to_float_nonneg by assumption.
  pose proof (to_fixed_half_unit x) as Hnear.
  apply Qcabs_Qcle_condition in Hnear. apply Qcabs_Qcle_condition.
  set (n := to_fixed x) in *.
  replace (Z2Qc n / Z2Qc 65536 - x)%Qc
    with ((Z2Qc n - x * Z2Qc 65536) * Q2Qc (1 # 65536))%Qc.
  - set (e := (Z2Qc n - x * Z2Qc 65536)%Qc) in *.
    revert Hnear.
    unfold Qcle, Qcmult, Qcopp, Q2Qc. cbn [this].
    rewrite !Qred_correct. intros [Hlo Hup]. split; lra.
  - replace (Q2Qc (1 # 65536)) with (/ Z2Qc 65536)%Qc
      by (apply Qc_is_canon; reflexivity).
    field. exact scale_nonzero.
Qed.

Lemma to_float_to_fixed_error_witness :
  0 <= to_fixed (Q2Qc (1 # 3)) < 2 ^ 31 /\
  (Qcabs (to_float (to_fixed (Q2Qc (1 # 3))) - Q2Qc (1 # 3))
   <= Q2Qc (1 # 131072))%Qc.
Proof.
  assert (Hn : 0 <= to_fixed (Q2Qc (1 # 3)) < 2 ^ 31)
    by (split; vm_compute; congruence).
  split; [exact Hn | exact (to_float_to_fixed_error _ Hn)].
Defined.

Lemma Z2Qc_le (a b : Z) : a <= b -> (Z2Qc a <= Z2Qc b)%Qc.
Proof.
  intros H. unfold Qcle, Z2Qc, Q2Qc. cbn [this]. rewrite !Qred_correct.
  rewrite <- Zle_Qle. exact H.
Qed.



(** X6.  [to_float] maps every unsigned 32-bit pattern into the Q16.16
    range: at least -32768 and below 32768. *)
Theorem to_float_range (v : Z) :
  0 <= v < 2 ^ 32 ->
  (Z2Qc (- 32768) <= to_float v)%Qc /\ (to_float v < Z2Qc 32768)%Qc.
Proof.
  intros Hv. rewrite to_float_pattern by assumption.
  change (Z.shiftl 1 16) with 65536.
  pose proof (wrap32_range v) as Hw. set (w := wrap32 v) in *.
  unfold Qcle, Qclt, Qcdiv, Qcmult, Qcinv, Z2Qc, Q2Qc. cbn [this].
  rewrite !Qred_correct.
  unfold Qle, Qlt, Qmult, Qinv, inject_Z. cbn. lia.
Qed.

Lemma to_float_range_witness :
  (Z2Qc (- 32768) <= to_float 0x80000000)%Qc /\
  (to_float 0x80000000 < Z2Qc 32768)%Qc.
Proof. apply (to_float_range 0x80000000). lia. Defined.

(** ** [to_fixed_point] *)

Lemma round_to_int64_length (scale_factor : Z) (data : list Qc) :
  forall out : list Z,
    round_to_int64 scale_factor data = Some out -> length out = length data.
Proof.
  induction data as [| x data IH]; intros out H.
  - injection H as <-. reflexivity.
  - cbn [round_to_int64] in H.
    destruct (float_to_int64 _) as [v |]; [| discriminate H].
    destruct (round_to_int64 scale_factor data) as [vs |]; [| discriminate H].
    injection H as <-. cbn [length]. rewrite (IH vs eq_refl). reflexivity.
Qed.

Lemma np_clip_range (lo hi v : Z) : lo <= hi -> lo <= np_clip lo hi v <= hi.
Proof. unfold np_clip. lia. Qed.

Lemma load_written (data : list Z) :
  Forall in_int32 data -> load_eeg_mem_data (write_mem_file data) = Some data.
Proof.
  intros Hrange. unfold load_eeg_mem_data. rewrite file_lines_written.
  apply (load_lines_written data [] Hrange).
Qed.

Lemma np_round_in_int64 (r : Qc) :
  (Qcabs r <= Z2Qc (2 ^ 62))%Qc ->
  float_to_int64 (np_round r) = Some (np_round r).
Proof.
  intros Hr. apply Qcabs_Qcle_condition in Hr. destruct Hr as [Hlo Hhi].
  revert Hlo Hhi. unfold Qcle, Qcopp, Z2Qc, Q2Qc. cbn [this].
  rewrite !Qred_correct. intros Hlo Hhi.
  destruct (np_round_bounds r) as [Hup Hdown].
  set (n := np_round r) in *.
  change (inject_Z (2 ^ 62)) with (4611686018427387904 # 1)%Q in Hlo, Hhi.
  assert (H1 : - 4611686018427387905 < n).
  { rewrite Zlt_Qlt.
    change (inject_Z (- 4611686018427387905))
      with (- 4611686018427387905 # 1)%Q.
    lra. }
  assert (H2 : n < 4611686018427387905).
  { rewrite Zlt_Qlt.
    change (inject_Z 4611686018427387905) with (4611686018427387905 # 1)%Q.
    lra. }
  unfold float_to_int64, INT64_MIN, INT64_MAX.
  destruct (Z.leb_spec (- 2 ^ 63) n); [| lia].
  destruct (Z.leb_spec n (2 ^ 63 - 1)); [reflexivity | lia].
Qed.

Lemma round_to_int64_defined (scale_factor : Z) (data : list Qc) :
  Forall (fun x => (Qcabs (x * Z2Qc scale_factor) <= Z2Qc (2 ^ 62))%Qc) data ->
  round_to_int64 scale_factor data
  = Some (map (fun x => np_round (x * Z2Qc scale_factor)%Qc) data).
Proof.
  induction 1 as [| x data Hx Hdata IH]; [reflexivity |].
  cbn [round_to_int64 map]. rewrite IH, (np_round_in_int64 _ Hx). reflexivity.
Qed.

(** X7.  For a scale factor that fits [int64] ([0 <= f <= 62]), a total
    width between 1 and 64 bits and samples whose scaled value is at most
    [2^62] in magnitude, [to_fixed_point] returns an array with one entry
    per input sample, every entry within the clamp bounds
    [-2^(i+f-1) .. 2^(i+f-1) - 1]; with at most 32 bits in total the result
    can be written to a sample file and read back unchanged. *)
Theorem to_fixed_point_clamped (data : list Qc) (integer_bits fractional_bits : Z) :
  0 <= fractional_bits <= 62 ->
  1 <= integer_bits + fractional_bits <= 64 ->
  Forall (fun x => (Qcabs (x * Z2Qc (2 ^ fractional_bits)) <= Z2Qc (2 ^ 62))%Qc)
    data ->
  exists out : list Z,
    to_fixed_point data integer_bits fractional_bits = Some out /\
    length out = length data /\
    Forall (fun v => - 2 ^ (integer_bits + fractional_bits - 1) <= v
                     <= 2 ^ (integer_bits + fractional_bits - 1) - 1) out /\
    (integer_bits + fractional_bits <= 32 ->
     load_eeg_mem_data (write_mem_file out) = Some out).
Proof.
  intros Hf Hw Hdata. unfold to_fixed_point, py_one_shiftl.
  destruct (Z.ltb_spec fractional_bits 0) as [Hf0 | _]; [lia |].
  destruct (Z.ltb_spec (integer_bits + fractional_bits - 1) 0) as [Hw0 | _];
    [lia |].
  destruct (Z.leb_spec 1024 fractional_bits) as [Hbig | _]; [lia |].
  rewrite !Z.shiftl_1_l. cbv zeta.
  rewrite (round_to_int64_defined _ _ Hdata).
  set (half := 2 ^ (integer_bits + fractional_bits - 1)).
  set (fixed := map (fun x => np_round (x * Z2Qc (2 ^ fractional_bits))%Qc) data).
  assert (Hhalf : 0 < half) by (apply Z.pow_pos_nonneg; lia).
  assert (Hbounds : Forall (fun v => - half <= v <= half - 1)
                      (map (np_clip (- half) (half - 1)) fixed)).
  { apply List.Forall_forall. intros v Hin. apply in_map_iff in Hin.
    destruct Hin as (u & <- & _). apply np_clip_range. lia. }
  eexists. split; [reflexivity |].
  split; [unfold fixed; rewrite !length_map; reflexivity |].
  split; [exact Hbounds |].
  intros Hbits. apply load_written.
  assert (Hle : half <= 2 ^ 31).
  { unfold half. apply Z.pow_le_mono_r; lia. }
  eapply List.Forall_impl; [| exact Hbounds].
  intros v Hv. unfold in_int32. cbv beta in Hv. lia.
Qed.

Lemma to_fixed_point_clamped_witness :
  exists out : list Z,
    to_fixed_point [Z2Qc 40000; Q2Qc (- 1 # 3)] 16 16 = Some out /\
    length out = length [Z2Qc 40000; Q2Qc (- 1 # 3)] /\
    Forall (fun v => - 2 ^ (16 + 16 - 1) <= v <= 2 ^ (16 + 16 - 1) - 1) out /\
    (16 + 16 <= 32 -> load_eeg_mem_data (write_mem_file out) = Some out).
Proof.
  apply (to_fixed_point_clamped [Z2Qc 40000; Q2Qc (- 1 # 3)] 16 16).
  - lia.
  - lia.
  - repeat constructor; apply Qcle_alt; vm_compute; discriminate.
Defined.

(** The same input, evaluated: the first sample is clamped. *)
Example to_fixed_point_clamped_example :
  to_fixed_point [Z2Qc 40000; Q2Qc (- 1 # 3)] 16 16
  = Some [2 ^ 31 - 1; - 21845] /\
  load_eeg_mem_data (write_mem_file [2 ^ 31 - 1; - 21845])
  = Some [2 ^ 31 - 1; - 21845].
Proof. split; vm_compute; reflexivity. Qed.

Lemma round_to_int64_exact (data : list Z) :
  Forall in_int32 data ->
  round_to_int64 (Z.shiftl 1 16)
    (map (fun v => (Z2Qc v / Z2Qc 65536)%Qc) data) = Some data.
Proof.
  induction 1 as [| v data Hv Hdata IH]; [reflexivity |].
  cbn [map round_to_int64]. rewrite IH.
  change (np_round (Z2Qc v / Z2Qc 65536 * Z2Qc (Z.shiftl 1 16))%Qc)
    with (to_fixed (Z2Qc v / Z2Qc (Z.shiftl 1 16))%Qc).
  rewrite to_fixed_scaled.
  unfold float_to_int64, INT64_MIN, INT64_MAX, in_int32 in *.
  destruct (Z.leb_spec (- 2 ^ 63) v); [| lia].
  destruct (Z.leb_spec v (2 ^ 63 - 1)); [reflexivity | lia].
Qed.

Lemma np_clip_in_int32 (data : list Z) :
  Forall in_int32 data -> map (np_clip (- 2 ^ 31) (2 ^ 31 - 1)) data = data.
Proof.
  induction 1 as [| v data Hv Hdata IH]; [reflexivity |].
  cbn [map]. rewrite IH. f_equal.
  unfold np_clip, in_int32 in *. lia.
Qed.

Lemma to_fixed_point_default (data : list Qc) :
  to_fixed_point data 16 16
  = match round_to_int64 (Z.shiftl 1 16) data with
    | Some fixed_data => Some (map (np_clip (- 2 ^ 31) (2 ^ 31 - 1)) fixed_data)
    | None => None
    end.
Proof. reflexivity. Qed.

(** X8.  With the default widths, [to_fixed_point] is exact on floats that
    are Q16.16 values: the floats [v / 65536] of 32-bit raw values [v] are
    converted back to exactly those raw values. *)
Theorem to_fixed_point_exact (data : list Z) :
  Forall in_int32 data ->
  to_fixed_point (map (fun v => (Z2Qc v / Z2Qc 65536)%Qc) data) 16 16 = Some data.
Proof.
  intros Hrange. rewrite to_fixed_point_default.
  rewrite (round_to_int64_exact data Hrange).
  rewrite (np_clip_in_int32 data Hrange). reflexivity.
Qed.

Lemma to_fixed_point_exact_witness :
  to_fixed_point
    (map (fun v => (Z2Qc v / Z2Qc 65536)%Qc) [- 2 ^ 31; - 1; 0; 2 ^ 31 - 1]) 16 16
  = Some [- 2 ^ 31; - 1; 0; 2 ^ 31 - 1].
Proof.
  apply to_fixed_point_exact. repeat constructor; unfold in_int32; lia.
Defined.

Lemma to_fixed_between (x : Qc) (lo hi : Z) :
  (Z2Qc lo <= x)%Qc -> (x <= Z2Qc hi)%Qc ->
  lo * 65536 <= to_fixed x <= hi * 65536.
Proof.
  unfold Qcle, Z2Qc, Q2Qc. cbn [this]. rewrite !Qred_correct.
  intros Hlo Hhi. unfold to_fixed. change (Z.shiftl 1 16) with 65536.
  destruct (np_round_bounds (x * Z2Qc 65536)%Qc) as [Hup Hdown].
  set (n := np_round (x * Z2Qc 65536)%Qc) in *.
  assert (Hr : (this (x * Z2Qc 65536)%Qc == this x * 65536)%Q).
  { unfold Qcmult, Z2Qc, Q2Qc. cbn [this]. rewrite !Qred_correct. reflexivity. }
  rewrite Hr in Hup, Hdown.
  assert (H1 : lo * 65536 - 1 < n).
  { rewrite Zlt_Qlt. unfold Z.sub. rewrite inject_Z_plus, inject_Z_mult.
    change (inject_Z 65536) with 65536%Q. change (inject_Z (- (1))) with (- 1)%Q.
    lra. }
  assert (H2 : n < hi * 65536 + 1).
  { rewrite Zlt_Qlt. rewrite inject_Z_plus, inject_Z_mult.
    change (inject_Z 65536) with 65536%Q. change (inject_Z 1) with 1%Q.
    lra. }
  lia.
Qed.

(** X9.  With the default widths, [to_fixed_point] is defined on every
    float sequence bounded by [2^46] in magnitude; a sample of at least
    32768 saturates to [2^31 - 1], a sample of at most -32768 to [-2^31],
    and a sample between -32768 and 32767 is converted as [to_fixed] does,
    without clamping. *)
Theorem to_fixed_point_saturates (data : list Qc) :
  Forall (fun x => (Z2Qc (- 2 ^ 46) <= x)%Qc /\ (x <= Z2Qc (2 ^ 46))%Qc) data ->
  exists out : list Z,
    to_fixed_point data 16 16 = Some out /\
    Forall2
      (fun x v =>
         ((Z2Qc 32768 <= x)%Qc -> v = 2 ^ 31 - 1) /\
         ((x <= Z2Qc (- 32768))%Qc -> v = - 2 ^ 31) /\
         ((Z2Qc (- 32768) <= x)%Qc -> (x <= Z2Qc 32767)%Qc -> v = to_fixed x))
      data out.
Proof.
  intros Hdata. unfold to_fixed_point.
  change (py_one_shiftl 16) with (Some (Z.shiftl 1 16)).
  change (py_one_shiftl (16 + 16 - 1)) with (Some (2 ^ 31)).
  cbv iota beta zeta.
  change (1024 <=? 16) with false.
  cbv iota.
  induction Hdata as [| x data [Hlo Hhi] Hdata (out & Hout & Hall)].
  - exists []. split; [reflexivity | constructor].
  - cbn [round_to_int64].
    change (np_round (x * Z2Qc (Z.shiftl 1 16))%Qc) with (to_fixed x).
    pose proof (to_fixed_between x _ _ Hlo Hhi) as Hn.
    destruct (round_to_int64 (Z.shiftl 1 16) data) as [vs |]; [| discriminate Hout].
    injection Hout as <-.
    assert (Hcast : float_to_int64 (to_fixed x) = Some (to_fixed x)).
    { unfold float_to_int64, INT64_MIN, INT64_MAX.
      destruct (Z.leb_spec (- 2 ^ 63) (to_fixed x)); [| lia].
      destruct (Z.leb_spec (to_fixed x) (2 ^ 63 - 1)); [reflexivity | lia]. }
    rewrite Hcast. eexists. split; [reflexivity |].
    cbn [map]. constructor; [| exact Hall].
    unfold np_clip. repeat split.
    + intros Hbig. pose proof (to_fixed_between x _ _ Hbig Hhi). lia.
    + intros Hsmall. pose proof (to_fixed_between x _ _ Hlo Hsmall). lia.
    + intros Hge Hle. pose proof (to_fixed_between x _ _ Hge Hle). lia.
Qed.

Lemma to_fixed_point_saturates_witness :
  exists out : list Z,
    to_fixed_point [Z2Qc 40000; Z2Qc (- 40000); Q2Qc (1 # 3)] 16 16 = Some out /\
    Forall2
      (fun x v =>
         ((Z2Qc 32768 <= x)%Qc -> v = 2 ^ 31 - 1) /\
         ((x <= Z2Qc (- 32768))%Qc -> v = - 2 ^ 31) /\
         ((Z2Qc (- 32768) <= x)%Qc -> (x <= Z2Qc 32767)%Qc -> v = to_fixed x))
      [Z2Qc 40000; Z2Qc (- 40000); Q2Qc (1 # 3)] out.
Proof.
  apply to_fixed_point_saturates.
  repeat constructor; apply Qcle_alt; vm_compute; discriminate.
Defined.

Example to_fixed_point_example :
  to_fixed_point [Z2Qc 40000; Z2Qc (- 40000); Q2Qc (1 # 3)] 16 16
  = Some [2 ^ 31 - 1; - 2 ^ 31; 21845].
Proof. vm_compute. reflexivity. Qed.

Example to_fixed_point_negative_shift :
  to_fixed_point [Z2Qc 1] 16 (- 1) = None /\ to_fixed_point [Z2Qc 1] 0 0 = None.
Proof. split; reflexivity. Qed.

(** ** The sample file beyond 32-bit samples *)

Local Open Scope string_scope.

Lemma signed_of_masked_wrap (v : Z) :
  (if Z.eqb (Z.land (Z.land v 0xFFFFFFFF) 0x80000000) 0
   then Z.land v 0xFFFFFFFF
   else Z.land v 0xFFFFFFFF - 0x100000000)%Z = wrap32 v.
Proof.
  rewrite land_low32, sign_test_bit31, <- wrap32_mod.
  pose proof (Z.mod_pos_bound v (2 ^ 32) ltac:(lia)) as Hm.
  rewrite wrap32_low by assumption.
  destruct (Z.ltb_spec (v mod 2 ^ 32) (2 ^ 31)).
  - rewrite testbit31_low by lia. reflexivity.
  - rewrite testbit31_high by lia. reflexivity.
Qed.

Lemma load_lines_written_wrap (data : list Z) :
  forall acc : list Z,
    load_lines (map written_line data) acc = Some (acc ++ map wrap32 data)%list.
Proof.
  induction data as [| v data IH]; intros acc.
  - cbn. rewrite app_nil_r. reflexivity.
  - cbn [map load_lines].
    destruct (strip_written_line v) as (Hstrip & c & h & Hform).
    destruct (format_08X_spec _ (masked_range v)) as (Hall & Hval & _).
    rewrite Hstrip, Hform. rewrite Hform in Hall, Hval.
    rewrite (int16_hex c h Hall), Hval. cbv zeta.
    rewrite (signed_of_masked_wrap v).
    rewrite IH, <- app_assoc. reflexivity.
Qed.

Lemma write_mem_file_length (data : list Z) :
  String.length (write_mem_file data) = (9 * length data)%nat.
Proof.
  induction data as [| v data IH]; [reflexivity |].
  cbn [write_mem_file]. rewrite length_append.
  destruct (format_08X_spec _ (masked_range v)) as (_ & _ & Hlen).
  rewrite Hlen. cbn [String.length length]. rewrite IH. lia.
Qed.

(** X10.  [write_mem_file] accepts integers of any size: each sample takes
    exactly 9 characters of the file (8 digits and the newline), and
    reading the file back gives every sample reduced to its signed 32-bit
    two's-complement value. *)
Theorem mem_file_wraps (data : list Z) :
  load_eeg_mem_data (write_mem_file data) = Some (map wrap32 data) /\
  String.length (write_mem_file data) = (9 * length data)%nat.
Proof.
  split; [| apply write_mem_file_length].
  unfold load_eeg_mem_data. rewrite file_lines_written.
  apply (load_lines_written_wrap data []).
Qed.

Example mem_file_wraps_example :
  load_eeg_mem_data (write_mem_file [2 ^ 31; 2 ^ 32 + 5; - 2 ^ 31 - 1]%Z)
  = Some [- 2 ^ 31; 5; 2 ^ 31 - 1]%Z.
Proof. vm_compute. reflexivity. Qed.

(** *** The reader of [enhance_analysis.py] *)

Lemma hex_upper_not_comment (c : ascii) (s : string) :
  is_hex_upper_digit c = true ->
  String.eqb (String c s) "" = false /\
  String.prefix "//" (String c s) = false /\
  String.prefix "@" (String c s) = false.
Proof.
  intros Hc. split; [reflexivity |]. cbn [String.prefix].
  split.
  - destruct (ascii_dec "/" c) as [<- | Hne]; [discriminate Hc | reflexivity].
  - destruct (ascii_dec "@" c) as [<- | Hne]; [discriminate Hc | reflexivity].
Qed.

Lemma enhance_sign_of_masked (v : Z) :
  (if (0x80000000 <=? Z.land v 0xFFFFFFFF)%Z
   then Z.land v 0xFFFFFFFF - 0x100000000
   else Z.land v 0xFFFFFFFF)%Z = wrap32 v.
Proof.
  rewrite land_low32, <- wrap32_mod.
  pose proof (Z.mod_pos_bound v (2 ^ 32) ltac:(lia)) as Hm.
  rewrite wrap32_low by assumption.
  change 0x80000000%Z with (2 ^ 31)%Z. change 0x100000000%Z with (2 ^ 32)%Z.
  destruct (Z.leb_spec (2 ^ 31) (v mod 2 ^ 32));
    destruct (Z.ltb_spec (v mod 2 ^ 32) (2 ^ 31)); try lia; reflexivity.
Qed.

Lemma enhance_load_lines_written (data : list Z) :
  forall acc : list Z,
    Enhance.load_lines (map written_line data) acc = (acc ++ map wrap32 data)%list.
Proof.
  induction data as [| v data IH]; intros acc.
  - cbn. rewrite app_nil_r. reflexivity.
  - cbn [map Enhance.load_lines].
    destruct (strip_written_line v) as (Hstrip & c & h & Hform).
    destruct (format_08X_spec _ (masked_range v)) as (Hall & Hval & _).
    rewrite Hstrip, Hform. rewrite Hform in Hall, Hval.
    destruct (hex_upper_not_comment c h (proj1 Hall)) as (He & Hs & Ha).
    rewrite He, Hs, Ha. cbn [negb andb].
    rewrite (int16_hex c h Hall), Hval. cbv zeta.
    rewrite (enhance_sign_of_masked v).
    rewrite IH, <- app_assoc. reflexivity.
Qed.

Lemma map_wrap32_in_range (data : list Z) :
  Forall in_int32 data -> map wrap32 data = data.
Proof.
  induction 1 as [| v data Hv Hdata IH]; [reflexivity |].
  cbn [map]. rewrite IH, wrap32_small by exact Hv. reflexivity.
Qed.

(** X11.  The reader of [enhance_analysis.py] returns, for a file written
    by [write_mem_file], the float [w / 65536] of the signed 32-bit value
    [w] of each sample; for in-range samples [to_fixed_point] takes these
    floats back to the samples, closing the chain writer, reader,
    quantiser. *)
Theorem enhance_reader_round_trip (data : list Z) :
  Enhance.load_eeg_mem_file (write_mem_file data)
  = map (fun v => (Z2Qc (wrap32 v) / Z2Qc 65536)%Qc) data /\
  (Forall in_int32 data ->
   to_fixed_point (Enhance.load_eeg_mem_file (write_mem_file data)) 16 16
   = Some data).
Proof.
  assert (Hload : Enhance.load_eeg_mem_file (write_mem_file data)
                  = map (fun v => (Z2Qc (wrap32 v) / Z2Qc 65536)%Qc) data).
  { unfold Enhance.load_eeg_mem_file. rewrite file_lines_written.
    rewrite (enhance_load_lines_written data []). cbn [app].
    rewrite map_map. reflexivity. }
  split; [exact Hload |].
  intros Hrange. rewrite Hload.
  rewrite <- (map_map wrap32 (fun w => (Z2Qc w / Z2Qc 65536)%Qc)).
  rewrite (map_wrap32_in_range data Hrange).
  rewrite to_fixed_point_default, (round_to_int64_exact data Hrange).
  rewrite (np_clip_in_int32 data Hrange). reflexivity.
Qed.

Lemma enhance_reader_round_trip_witness :
  to_fixed_point
    (Enhance.load_eeg_mem_file (write_mem_file [- 0x0000A5A6; 0x00010000]%Z)) 16 16
  = Some [- 0x0000A5A6; 0x00010000]%Z.
Proof.
  apply (proj2 (enhance_reader_round_trip [- 0x0000A5A6; 0x00010000]%Z)).
  repeat constructor; unfold in_int32; lia.
Defined.

Local Close Scope string_scope.

(** *** The two readers side by side *)

Local Open Scope string_scope.

Lemma to_float_negative_shifted (v : Z) :
  (- 2 ^ 31 <= v < 0)%Z ->
  to_float v = (Z2Qc v / Z2Qc 65536 - Z2Qc 65536)%Qc.
Proof.
  intros Hv. rewrite to_float_negative_raw by assumption.
  change (Z.shiftl 1 16) with 65536%Z. rewrite Z2Qc_sub.
  replace (Z2Qc (2 ^ 32)) with (Z2Qc 65536 * Z2Qc 65536)%Qc
    by (apply Qc_is_canon; reflexivity).
  field. exact scale_nonzero.
Qed.

Lemma shifted_differs (e : Qc) : (e - Z2Qc 65536)%Qc <> e.
Proof.
  intros H.
  assert (Hz : Z2Qc 65536 = 0%Qc).
  { replace (Z2Qc 65536) with (e - (e - Z2Qc 65536))%Qc by ring.
    rewrite H. ring. }
  exact (scale_nonzero Hz).
Qed.

Lemma map_to_float_signed (data : list Z) :
  Forall in_int32 data ->
  map to_float data
  = map (fun v => if (v <? 0)%Z then (Z2Qc v / Z2Qc 65536 - Z2Qc 65536)%Qc
                  else (Z2Qc v / Z2Qc 65536)%Qc) data.
Proof.
  induction 1 as [| v data Hv Hdata IH]; [reflexivity |].
  cbn [map]. rewrite IH. f_equal. unfold in_int32 in Hv.
  destruct (Z.ltb_spec v 0).
  - apply to_float_negative_shifted. lia.
  - apply to_float_nonneg. lia.
Qed.

(** X12.  On a file written from in-range samples, the reader of
    [reference_model.py] returns [v / 65536] for a non-negative sample and
    [v / 65536 - 65536] for a negative one; it returns the same floats as
    the reader of [enhance_analysis.py] exactly when no sample is
    negative. *)
Theorem readers_compared (data : list Z) :
  Forall in_int32 data ->
  load_eeg_mem_file (write_mem_file data)
  = Some (map (fun v => if (v <? 0)%Z
                        then (Z2Qc v / Z2Qc 65536 - Z2Qc 65536)%Qc
                        else (Z2Qc v / Z2Qc 65536)%Qc) data) /\
  (load_eeg_mem_file (write_mem_file data)
   = Some (Enhance.load_eeg_mem_file (write_mem_file data))
   <-> Forall (fun v => 0 <= v)%Z data).
Proof.
  intros Hrange.
  assert (Href : load_eeg_mem_file (write_mem_file data)
                 = Some (map to_float data)).
  { unfold load_eeg_mem_file. rewrite (load_written data Hrange). reflexivity. }
  assert (Henh : Enhance.load_eeg_mem_file (write_mem_file data)
                 = map (fun v => (Z2Qc v / Z2Qc 65536)%Qc) data).
  { unfold Enhance.load_eeg_mem_file. rewrite file_lines_written.
    rewrite (enhance_load_lines_written data []). cbn [app].
    rewrite (map_wrap32_in_range data Hrange). reflexivity. }
  rewrite Href, Henh, (map_to_float_signed data Hrange).
  split; [reflexivity |]. clear Href Henh.
  induction Hrange as [| v data Hv Hdata IH].
  - split; [constructor | reflexivity].
  - cbn [map]. split.
    + intros H. injection H as Hhead Htail.
      constructor.
      * destruct (Z.ltb_spec v 0) as [Hneg | Hpos]; [| exact Hpos].
        exfalso. exact (shifted_differs _ Hhead).
      * apply IH. rewrite Htail. reflexivity.
    + intros H. inversion H as [| v' data' Hpos Hrest]; subst.
      destruct (Z.ltb_spec v 0) as [Hneg | _]; [lia |].
      apply IH in Hrest. injection Hrest as Hrest. rewrite Hrest. reflexivity.
Qed.

Lemma readers_compared_witness :
  load_eeg_mem_file (write_mem_file [3; - 1]%Z)
  = Some [(Z2Qc 3 / Z2Qc 65536)%Qc; (Z2Qc (- 1) / Z2Qc 65536 - Z2Qc 65536)%Qc].
Proof.
  apply (proj1 (readers_compared [3; - 1]%Z
                  ltac:(repeat constructor; unfold in_int32; lia))).
Defined.

(** A comment line: the reader of [reference_model.py] raises
    [ValueError] on it, the reader of [enhance_analysis.py] skips it. *)
Example load_eeg_mem_data_comment_line :
  load_eeg_mem_data ("0000000A" ++ String newline ("// note" ++ String newline ""))
  = None /\
  Enhance.load_eeg_mem_file
    ("0000000A" ++ String newline ("// note" ++ String newline ""))
  = [(Z2Qc 10 / Z2Qc 65536)%Qc].
Proof. split; reflexivity. Qed.

Local Close Scope string_scope.

(** ** More on the packet encoder *)

Section EncoderMore.

Context {sample : Type}.
Context (below : sample -> bool) (sub : sample -> sample -> sample).
Context (zero : sample).

Lemma compress_step_emits (st : encoder_state sample) (v : sample) (f : bool) :
  Forall (packet_justified below) (snd (compress_step below sub st v f)) /\
  spike_values (snd (compress_step below sub st v f)) = (if f then [v] else []).
Proof.
  split.
  - unfold compress_step, emit_pending.
    destruct f; [| destruct (below (sub v (prev_value st))) eqn:Hb];
      repeat match goal with
        | |- context [if ?c then _ else _] => destruct c
        end;
      cbn [fst snd app]; repeat constructor; assumption.
  - unfold compress_step, emit_pending.
    destruct f; [| destruct (below (sub v (prev_value st)))];
      repeat match goal with
        | |- context [if ?c then _ else _] => destruct c
        end;
      reflexivity.
Qed.

Lemma spike_values_app (ps qs : list (Packet sample)) :
  spike_values (ps ++ qs) = spike_values ps ++ spike_values qs.
Proof. unfold spike_values. apply flat_map_app. Qed.

Lemma encode_all_emits (data : list sample) :
  forall (flags : list bool) (st : encoder_state sample),
    Forall (packet_justified below) (snd (encode_all below sub st data flags)) /\
    spike_values (snd (encode_all below sub st data flags))
    = flagged_samples data flags.
Proof.
  induction data as [| v data IH]; intros [| f flags] st;
    try (split; [constructor | reflexivity]).
  cbn [encode_all flagged_samples].
  destruct (compress_step_emits st v f) as (Hj1 & Hs1).
  destruct (compress_step below sub st v f) as [st1 out1]. cbn [snd] in *.
  destruct (IH flags st1) as (Hj2 & Hs2).
  destruct (encode_all below sub st1 data flags) as [st2 out2]. cbn [snd] in *.
  split.
  - apply Forall_app. split; assumption.
  - rewrite spike_values_app, Hs1, Hs2. destruct f; reflexivity.
Qed.

Lemma final_run_emits (st : encoder_state sample) :
  Forall (packet_justified below) (final_run st) /\ spike_values (final_run st) = [].
Proof.
  unfold final_run. destruct (in_run st && (0 <? run_count st)).
  - split; [repeat constructor | reflexivity].
  - split; [constructor | reflexivity].
Qed.

(** The indexed loop reads only the first [length data] flags. *)
Lemma compress_loop_prefix (data : list sample) :
  forall (f1 extra fpre : list bool) (st : encoder_state sample)
         (out : list (Packet sample)),
    length f1 = length data ->
    compress_loop below sub (fpre ++ f1 ++ extra) (length fpre) data st out
    = Some (fst (encode_all below sub st data f1),
            out ++ snd (encode_all below sub st data f1)).
Proof.
  induction data as [| v data IH]; intros [| f f1] extra fpre st out Hlen;
    try discriminate Hlen.
  - cbn. rewrite app_nil_r. reflexivity.
  - cbn [compress_loop encode_all app].
    rewrite (list_lookup_middle fpre (f1 ++ extra) f (length fpre) eq_refl).
    destruct (compress_step below sub st v f) as [st1 out1].
    injection Hlen as Hlen.
    replace (fpre ++ f :: f1 ++ extra) with ((fpre ++ [f]) ++ f1 ++ extra)
      by (rewrite <- app_assoc; reflexivity).
    replace (S (length fpre)) with (length (fpre ++ [f]))
      by (rewrite length_app; simpl; lia).
    rewrite IH by assumption.
    destruct (encode_all below sub st1 data f1) as [st2 out2]. cbn [fst snd].
    rewrite <- app_assoc. reflexivity.
Qed.

Lemma compress_loop_short (data : list sample) :
  forall (frest fpre : list bool) (st : encoder_state sample)
         (out : list (Packet sample)),
    (length frest < length data)%nat ->
    compress_loop below sub (fpre ++ frest) (length fpre) data st out = None.
Proof.
  induction data as [| v data IH]; intros frest fpre st out Hlen;
    [cbn in Hlen; lia |].
  cbn [compress_loop]. destruct frest as [| f frest].
  - rewrite app_nil_r.
    rewrite (lookup_ge_None_2 fpre (length fpre)) by lia. reflexivity.
  - rewrite (list_lookup_middle fpre frest f (length fpre) eq_refl).
    destruct (compress_step below sub st v f) as [st1 out1].
    replace (fpre ++ f :: frest) with ((fpre ++ [f]) ++ frest)
      by (rewrite <- app_assoc; reflexivity).
    replace (S (length fpre)) with (length (fpre ++ [f]))
      by (rewrite length_app; simpl; lia).
    apply IH. cbn [length] in Hlen. lia.
Qed.

Lemma compress_signal_long_flags (data : list sample) (flags : list bool) :
  (length data <= length flags)%nat ->
  compress_signal below sub zero data flags
  = Some (snd (encode_all below sub (encoder_init zero) data
                 (firstn (length data) flags))
          ++ final_run
               (fst (encode_all below sub (encoder_init zero) data
                       (firstn (length data) flags)))).
Proof.
  intros Hlen. unfold compress_signal.
  rewrite <- (firstn_skipn (length data) flags) at 1.
  pose proof (compress_loop_prefix data (firstn (length data) flags)
                (skipn (length data) flags) [] (encoder_init zero) []) as Hloop.
  cbn [app length] in Hloop. rewrite Hloop by (rewrite length_firstn; lia).
  reflexivity.
Qed.

(** X14.  Flags and samples are paired by index: with fewer flags than
    samples [compress_signal] raises ([IndexError]); with at least as many
    it succeeds and the surplus flags are ignored. *)
Theorem compress_signal_flag_length (data : list sample) (flags : list bool) :
  (compress_signal below sub zero data flags = None
   <-> (length flags < length data)%nat) /\
  ((length data <= length flags)%nat ->
   compress_signal below sub zero data flags
   = compress_signal below sub zero data (firstn (length data) flags)).
Proof.
  split.
  - split.
    + intros Hnone.
      destruct (Nat.lt_ge_cases (length flags) (length data)) as [Hlt | Hge];
        [exact Hlt |].
      rewrite (compress_signal_long_flags data flags Hge) in Hnone.
      discriminate Hnone.
    + intros Hlt. unfold compress_signal.
      pose proof (compress_loop_short data flags [] (encoder_init zero) [] Hlt)
        as Hloop.
      cbn [app length] in Hloop. rewrite Hloop. reflexivity.
  - intros Hge. rewrite (compress_signal_long_flags data flags Hge).
    rewrite (compress_signal_long_flags data (firstn (length data) flags))
      by (rewrite length_firstn; lia).
    rewrite firstn_firstn, Nat.min_id. reflexivity.
Qed.

Lemma length_le_total_covered (ps : list (Packet sample)) :
  Forall run_length_ok ps -> Z.of_nat (length ps) <= total_covered ps.
Proof.
  induction 1 as [| p ps Hp Hps IH]; [cbn; lia |].
  unfold total_covered in *. cbn [map fold_right length].
  destruct p; cbn in *; lia.
Qed.

(** X15.  The encoder never expands its input and never invents packet
    kinds: whenever it succeeds there are at most as many packets as
    samples, no literal packet, and a delta packet only for a delta that is
    not below the run-length threshold. *)
Theorem compress_signal_never_expands (data : list sample) (flags : list bool)
    (packets : list (Packet sample)) :
  compress_signal below sub zero data flags = Some packets ->
  (length packets <= length data)%nat /\
  Forall (packet_justified below) packets.
Proof.
  intros Hsome.
  assert (Hge : (length data <= length flags)%nat).
  { destruct (Nat.lt_ge_cases (length flags) (length data)) as [Hlt | Hge];
      [| exact Hge].
    unfold compress_signal in Hsome.
    pose proof (compress_loop_short data flags [] (encoder_init zero) [] Hlt)
      as Hloop.
    cbn [app length] in Hloop. rewrite Hloop in Hsome. discriminate Hsome. }
  rewrite (compress_signal_long_flags data flags Hge) in Hsome.
  injection Hsome as <-.
  set (fl := firstn (length data) flags).
  assert (Hfl : length fl = length data)
    by (unfold fl; rewrite length_firstn; lia).
  destruct (encode_all_spec below sub data fl (encoder_init zero) Hfl
              (encoder_init_inv zero)) as (Hinv & Hok & _ & Hcov).
  destruct (final_run_spec _ Hinv) as (Hok' & _ & Hfin).
  destruct (encode_all_emits data fl (encoder_init zero)) as (Hj & _).
  destruct (final_run_emits (fst (encode_all below sub (encoder_init zero) data fl)))
    as (Hj' & _).
  split; [| apply Forall_app; split; assumption].
  assert (Hall : Forall run_length_ok
                   (snd (encode_all below sub (encoder_init zero) data fl)
                    ++ final_run (fst (encode_all below sub (encoder_init zero) data fl))))
    by (apply Forall_app; split; assumption).
  assert (Htotal : total_covered
                     (snd (encode_all below sub (encoder_init zero) data fl)
                      ++ final_run (fst (encode_all below sub (encoder_init zero) data fl)))
                   = Z.of_nat (length data)).
  { rewrite total_covered_app, Hfin. cbn [pending_samples encoder_init in_run] in Hcov.
    lia. }
  pose proof (length_le_total_covered _ Hall) as Hlen. lia.
Qed.

(** X16.  The spike packets are the flagged samples: read in order, their
    payloads are exactly the samples whose flag is set. *)
Theorem compress_signal_spike_values (data : list sample) (flags : list bool)
    (packets : list (Packet sample)) :
  length flags = length data ->
  compress_signal below sub zero data flags = Some packets ->
  spike_values packets = flagged_samples data flags.
Proof.
  intros Hlen Hsome.
  rewrite (compress_signal_encode_all below sub zero data flags Hlen) in Hsome.
  injection Hsome as <-.
  destruct (encode_all_emits data flags (encoder_init zero)) as (_ & Hs).
  destruct (final_run_emits (fst (encode_all below sub (encoder_init zero) data flags)))
    as (_ & Hs').
  rewrite spike_values_app, Hs, Hs', app_nil_r. reflexivity.
Qed.

End EncoderMore.

Lemma compress_signal_flag_length_witness :
  compress_signal_float [Z2Qc 1; Z2Qc 2] [false] = None /\
  compress_signal_float [Z2Qc 1] [false; true]
  = compress_signal_float [Z2Qc 1] (firstn 1 [false; true]).
Proof.
  split.
  - apply (proj1 (compress_signal_flag_length below_rle Qcminus 0%Qc
                    [Z2Qc 1; Z2Qc 2] [false])).
    cbn. lia.
  - apply (proj2 (compress_signal_flag_length below_rle Qcminus 0%Qc
                    [Z2Qc 1] [false; true])).
    cbn. lia.
Defined.

Lemma compress_signal_never_expands_witness :
  exists packets : list (Packet Qc),
    compress_signal_float [Z2Qc 1; Z2Qc 1; Z2Qc 7] [false; false; true]
    = Some packets /\
    (length packets <= 3)%nat /\
    Forall (packet_justified below_rle) packets.
Proof.
  eexists. split; [reflexivity |].
  apply (compress_signal_never_expands below_rle Qcminus 0%Qc
           [Z2Qc 1; Z2Qc 1; Z2Qc 7] [false; false; true]).
  reflexivity.
Defined.

Lemma compress_signal_spike_values_witness :
  exists packets : list (Packet Qc),
    compress_signal_float [Z2Qc 1; Z2Qc 9; Z2Qc 7] [false; true; true]
    = Some packets /\
    spike_values packets = [Z2Qc 9; Z2Qc 7].
Proof.
  eexists. split; [reflexivity |].
  apply (compress_signal_spike_values below_rle Qcminus 0%Qc
           [Z2Qc 1; Z2Qc 9; Z2Qc 7] [false; true; true]); reflexivity.
Defined.

(** ** Runs of any length *)

Section EncoderLongRuns.

Context {sample : Type}.
Context (below : sample -> bool) (sub : sample -> sample -> sample).
Context (zero v : sample).

Lemma encode_all_full_runs (q : nat) :
  forall p rv : sample,
    below (sub v p) = true ->
    below (sub v v) = true ->
    exists p' rv' : sample,
      below (sub v p') = true /\
      encode_all below sub
        {| prev_value := p; run_count := 0; run_value := rv; in_run := false |}
        (repeat v (255 * q)) (repeat false (255 * q))
      = ({| prev_value := p'; run_count := 0; run_value := rv'; in_run := false |},
         repeat (RunLength 255 v) q).
Proof.
  induction q as [| q IH]; intros p rv Hp Hv.
  - exists p, rv. split; [exact Hp | reflexivity].
  - replace (255 * S q)%nat with (255 + 255 * q)%nat by lia.
    rewrite !repeat_app.
    rewrite encode_all_app by (rewrite !repeat_length; reflexivity).
    rewrite (encode_all_full_run below sub v p rv Hp). cbn [fst snd].
    destruct (IH v v Hv Hv) as (p' & rv' & Hp' & Heq).
    rewrite Heq. cbn [fst snd]. exists p', rv'.
    split; [exact Hp' | reflexivity].
Qed.

(** X17.  A quiet stream of [255 * q + r] identical samples ([r < 255],
    none flagged, the value within the run-length threshold of zero) is
    encoded as [q] run-length packets of count 255 followed, when [r] is
    not zero, by one of count [r]. *)
Theorem compress_signal_constant (q r : nat) :
  below (sub v zero) = true ->
  below (sub v v) = true ->
  (r < 255)%nat ->
  compress_signal below sub zero
    (repeat v (255 * q + r)) (repeat false (255 * q + r))
  = Some (repeat (RunLength 255 v) q
          ++ match r with
             | O => []
             | S _ => [RunLength (Z.of_nat r) v]
             end).
Proof.
  intros H0 Hv Hr.
  rewrite compress_signal_encode_all by (rewrite !repeat_length; reflexivity).
  rewrite !repeat_app.
  rewrite encode_all_app by (rewrite !repeat_length; reflexivity).
  unfold encoder_init.
  destruct (encode_all_full_runs q zero zero H0 Hv) as (p' & rv' & Hp' & Heq).
  rewrite Heq. cbn [fst snd].
  destruct r as [| r'].
  - cbn. rewrite app_nil_r. reflexivity.
  - rewrite (encode_all_open_run below sub v (S r') p' rv' Hp')
      by (unfold max_run_length; lia).
    cbn [fst snd]. unfold final_run. cbn [in_run run_count run_value andb].
    destruct (Z.ltb_spec 0 (Z.of_nat (S r'))) as [_ | Hbad]; [| lia].
    rewrite app_nil_r. reflexivity.
Qed.

End EncoderLongRuns.

Lemma compress_signal_constant_witness :
  compress_signal_float (repeat 0%Qc (255 * 2 + 40)) (repeat false (255 * 2 + 40))
  = Some (repeat (RunLength 255 0%Qc) 2 ++ [RunLength 40 0%Qc]).
Proof.
  apply (compress_signal_constant below_rle Qcminus 0%Qc 0%Qc 2 40).
  - reflexivity.
  - reflexivity.
  - lia.
Defined.

(** ** More on the spike detector *)

Section DetectorMore.

Context {sample : Type} (exceeds : sample -> bool).

(** A flag of the single pass, characterised: the sample exceeds the
    threshold, the initial refractory count has run out, and none of the
    eight preceding positions is flagged. *)
Lemma detect_from_flag (data : list sample) :
  forall (rc : Z) (j : nat),
    nth j (detect_from exceeds rc data) false = true <->
    (exists x, nth_error data j = Some x /\ exceeds x = true) /\
    rc <= Z.of_nat j /\
    (forall k : nat, (1 <= k <= 8)%nat -> (k <= j)%nat ->
                     nth (j - k) (detect_from exceeds rc data) false = false).
Proof.
  induction data as [| v rest IH]; intros rc j.
  - split.
    + intros H. destruct j; discriminate H.
    + intros [[x [Hx _]] _]. destruct j; discriminate Hx.
  - cbn [detect_from]. destruct (Z.ltb_spec 0 rc) as [Hpos | Hneg].
    + destruct j as [| j'].
      * split; [intros H; discriminate H | intros (_ & Hrc & _); cbn in Hrc; lia].
      * cbn [nth nth_error]. rewrite (IH (rc - 1) j'). split.
        -- intros (Hx & Hrc & Hprev). split; [exact Hx |]. split; [lia |].
           intros k Hk Hkj. destruct (Nat.eq_dec k (S j')) as [-> | Hne].
           ++ rewrite Nat.sub_diag. reflexivity.
           ++ replace (S j' - k)%nat with (S (j' - k)) by lia.
              cbn [nth]. apply Hprev; lia.
        -- intros (Hx & Hrc & Hprev). split; [exact Hx |]. split; [lia |].
           intros k Hk Hkj. specialize (Hprev k Hk ltac:(lia)).
           replace (S j' - k)%nat with (S (j' - k)) in Hprev by lia.
           exact Hprev.
    + destruct (exceeds v) eqn:Hv.
      * destruct j as [| j'].
        -- cbn [nth nth_error]. split; [| reflexivity]. intros _.
           split; [exists v; split; [reflexivity | exact Hv] |].
           split; [cbn; lia |]. intros k Hk Hkj. lia.
        -- cbn [nth nth_error]. rewrite (IH refractory_period j').
           unfold refractory_period. split.
           ++ intros (Hx & Hrc & Hprev). split; [exact Hx |]. split; [lia |].
              intros k Hk Hkj. destruct (Nat.eq_dec k (S j')) as [-> | Hne]; [lia |].
              replace (S j' - k)%nat with (S (j' - k)) by lia.
              cbn [nth]. apply Hprev; lia.
           ++ intros (Hx & Hrc & Hprev). split; [exact Hx |].
              assert (Hfar : (8 <= j')%nat).
              { destruct (Nat.le_gt_cases 8 j') as [Hle | Hgt]; [exact Hle |].
                specialize (Hprev (S j') ltac:(lia) ltac:(lia)).
                rewrite Nat.sub_diag in Hprev. discriminate Hprev. }
              split; [lia |].
              intros k Hk Hkj. specialize (Hprev k Hk ltac:(lia)).
              replace (S j' - k)%nat with (S (j' - k)) in Hprev by lia.
              exact Hprev.
      * destruct j as [| j'].
        -- cbn [nth nth_error]. split; [intros H; discriminate H |].
           intros ([x [Hx Hex]] & _). injection Hx as <-. congruence.
        -- cbn [nth nth_error]. rewrite (IH rc j'). split.
           ++ intros (Hx & Hrc & Hprev). split; [exact Hx |]. split; [lia |].
              intros k Hk Hkj. destruct (Nat.eq_dec k (S j')) as [-> | Hne].
              ** rewrite Nat.sub_diag. reflexivity.
              ** replace (S j' - k)%nat with (S (j' - k)) by lia.
                 cbn [nth]. apply Hprev; lia.
           ++ intros (Hx & Hrc & Hprev). split; [exact Hx |]. split; [lia |].
              intros k Hk Hkj. specialize (Hprev k Hk ltac:(lia)).
              replace (S j' - k)%nat with (S (j' - k)) in Hprev by lia.
              exact Hprev.
Qed.

(** X18.  The detector, characterised: index [i] is flagged exactly when
    it is past the warm-up window, its sample exceeds the threshold, and
    none of the eight preceding indices is flagged. *)
Theorem detect_spikes_flag_iff (data : list sample) (i : nat) :
  nth i (detect_spikes exceeds data) false = true <->
  (window_size <= i)%nat /\
  (exists x, nth_error data i = Some x /\ exceeds x = true) /\
  (forall k : nat, (1 <= k <= 8)%nat -> (k <= i)%nat ->
                   nth (i - k) (detect_spikes exceeds data) false = false).
Proof.
  rewrite detect_spikes_layout.
  remember (Nat.min window_size (length data)) as m eqn:Em.
  remember (skipn window_size data) as rest eqn:Erest.
  assert (Hflag : forall n : nat,
    nth n (repeat false m ++ detect_from exceeds 0 rest) false
    = if (n <? m)%nat then false
      else nth (n - m) (detect_from exceeds 0 rest) false).
  { intros n. destruct (Nat.ltb_spec n m) as [Hlt | Hge].
    - rewrite app_nth1 by (rewrite repeat_length; exact Hlt).
      apply nth_repeat_false.
    - rewrite app_nth2 by (rewrite repeat_length; exact Hge).
      rewrite repeat_length. reflexivity. }
  assert (Hdata : forall n : nat,
    nth_error rest n = nth_error data (window_size + n)).
  { intros n. subst rest. apply nth_error_skipn. }
  rewrite Hflag. destruct (Nat.ltb_spec i m) as [Hlt | Hge].
  - split; [intros H; discriminate H |].
    intros (Hw & [x [Hx _]] & _). exfalso.
    assert (Hlen : (i < length data)%nat)
      by (apply nth_error_Some; rewrite Hx; discriminate).
    lia.
  - destruct (Nat.le_gt_cases (length data) window_size) as [Hshort | Hlong].
    + assert (Hrest : rest = []) by (subst rest; apply skipn_all2; exact Hshort).
      rewrite Hrest. cbn [detect_from]. split.
      * intros H. destruct (i - m)%nat; discriminate H.
      * intros (Hw & [x [Hx _]] & _). exfalso.
        assert (Hlen : (i < length data)%nat)
          by (apply nth_error_Some; rewrite Hx; discriminate).
        lia.
    + assert (Hm : m = window_size) by lia.
      clear Em. subst m. rewrite (detect_from_flag rest 0 (i - window_size)).
      rewrite Hdata.
      replace (window_size + (i - window_size))%nat with i by lia.
      split.
      * intros (Hx & _ & Hprev). split; [exact Hge |]. split; [exact Hx |].
        intros k Hk Hki. rewrite Hflag.
        destruct (Nat.ltb_spec (i - k) window_size) as [_ | Hpast];
          [reflexivity |].
        replace (i - k - window_size)%nat with (i - window_size - k)%nat by lia.
        apply Hprev; lia.
      * intros (_ & Hx & Hprev). split; [exact Hx |]. split; [lia |].
        intros k Hk Hkj. specialize (Hprev k Hk ltac:(lia)).
        rewrite Hflag in Hprev.
        destruct (Nat.ltb_spec (i - k) window_size) as [Hbad | _]; [lia |].
        replace (i - k - window_size)%nat with (i - window_size - k)%nat
          in Hprev by lia.
        exact Hprev.
Qed.

Lemma count_true_app (l1 l2 : list bool) :
  count_true (l1 ++ l2) = (count_true l1 + count_true l2)%nat.
Proof. unfold count_true. rewrite List.filter_app, length_app. reflexivity. Qed.

Lemma count_true_repeat_false (n : nat) : count_true (repeat false n) = 0%nat.
Proof. induction n as [| n IH]; [reflexivity | exact IH]. Qed.

Lemma detect_from_count (data : list sample) :
  forall rc : Z,
    0 <= rc <= 8 ->
    9 * Z.of_nat (count_true (detect_from exceeds rc data)) + rc
    <= Z.of_nat (length data) + 8.
Proof.
  induction data as [| v rest IH]; intros rc Hrc.
  - cbn. lia.
  - cbn [detect_from length]. destruct (Z.ltb_spec 0 rc) as [Hpos | Hneg].
    + specialize (IH (rc - 1) ltac:(lia)).
      unfold count_true in *. cbn [List.filter]. lia.
    + destruct (exceeds v).
      * specialize (IH refractory_period ltac:(unfold refractory_period; lia)).
        unfold refractory_period in *.
        unfold count_true in *. cbn [List.filter length]. lia.
      * specialize (IH rc Hrc).
        unfold count_true in *. cbn [List.filter]. lia.
Qed.

(** X19.  Spikes are sparse: the number of flags is at most one for every
    nine samples past the warm-up window, rounded up; a sequence of at most
    [window_size] samples has no flag at all. *)
Theorem detect_spikes_count (data : list sample) :
  (9 * count_true (detect_spikes exceeds data)
   <= length data - window_size + 8)%nat /\
  ((length data <= window_size)%nat -> count_true (detect_spikes exceeds data) = 0%nat).
Proof.
  split.
  - rewrite detect_spikes_layout, count_true_app, count_true_repeat_false.
    pose proof (detect_from_count (skipn window_size data) 0 ltac:(lia)) as H.
    rewrite length_skipn in H. cbn [Nat.add]. lia.
  - intros Hshort. rewrite detect_spikes_short by exact Hshort.
    apply count_true_repeat_false.
Qed.

End DetectorMore.

Lemma detect_spikes_flag_iff_witness :
  nth 41 (detect_spikes_float (repeat (Z2Qc 100) 50)) false = true.
Proof.
  apply (proj2 (detect_spikes_flag_iff exceeds_spike (repeat (Z2Qc 100) 50) 41)).
  split; [unfold window_size; lia |].
  split; [exists (Z2Qc 100); split; reflexivity |].
  intros k Hk _.
  assert (Hcases : k = 1%nat \/ k = 2%nat \/ k = 3%nat \/ k = 4%nat \/ k = 5%nat
                   \/ k = 6%nat \/ k = 7%nat \/ k = 8%nat) by lia.
  repeat (destruct Hcases as [-> | Hcases]; [vm_compute; reflexivity |]).
  subst k. vm_compute. reflexivity.
Defined.

Lemma detect_spikes_count_witness :
  count_true (detect_spikes_float (repeat (Z2Qc 100) 20)) = 0%nat.
Proof.
  apply (proj2 (detect_spikes_count exceeds_spike (repeat (Z2Qc 100) 20))).
  cbn. unfold window_size. lia.
Defined.

(** ** More on the filter *)

Lemma df2t_run_length (b a : list Qc) (xs : list Qc) :
  forall z : list Qc, length (df2t_run b a z xs) = length xs.
Proof.
  induction xs as [| x xs IH]; intros z; [reflexivity |].
  cbn [df2t_run length]. rewrite IH. reflexivity.
Qed.

Lemma length_filter_signal (xs : list Qc) :
  length (filter_signal xs) = length xs.
Proof. unfold filter_signal, lfilter. apply df2t_run_length. Qed.

Section ZeroInput.

Variables b0 b1 b2 b3 b4 a0 a1 a2 a3 a4 : Qc.

Lemma df2t_run_zero (n : nat) :
  df2t_run [b0; b1; b2; b3; b4] [a0; a1; a2; a3; a4]
    [0; 0; 0; 0]%Qc (repeat 0%Qc n)
  = repeat 0%Qc n.
Proof.
  induction n as [| n IH]; [reflexivity |].
  cbn [repeat df2t_run df2t_update hd tl].
  replace (b0 * 0 + 0)%Qc with 0%Qc by ring.
  replace (b1 * 0 + 0 - a1 * 0)%Qc with 0%Qc by ring.
  replace (b2 * 0 + 0 - a2 * 0)%Qc with 0%Qc by ring.
  replace (b3 * 0 + 0 - a3 * 0)%Qc with 0%Qc by ring.
  replace (b4 * 0 + 0 - a4 * 0)%Qc with 0%Qc by ring.
  rewrite IH. reflexivity.
Qed.

End ZeroInput.

(** X20.  The filter keeps the length of its input, is causal (the
    outputs for a prefix of the input do not depend on what follows) and
    maps a zero input to a zero output. *)
Theorem filter_signal_causal :
  (forall xs : list Qc, length (filter_signal xs) = length xs) /\
  (forall xs1 xs2 : list Qc,
      firstn (length xs1) (filter_signal (xs1 ++ xs2)) = filter_signal xs1) /\
  (forall n : nat, filter_signal (repeat 0%Qc n) = repeat 0%Qc n).
Proof.
  split; [exact length_filter_signal |]. split.
  - intros xs1 xs2.
    destruct (filter_signal_prefix xs1 xs2) as (tail & Heq & _).
    rewrite Heq, <- (length_filter_signal xs1).
    rewrite firstn_app, Nat.sub_diag, firstn_all. cbn [firstn].
    apply app_nil_r.
  - intros n. unfold filter_signal, lfilter.
    rewrite a_float_head, !map_div_one.
    unfold b_float, a_float, b_coeff, a_coeff.
    cbn [map length Nat.max Nat.sub repeat].
    apply df2t_run_zero.
Qed.

(** ** The whole pipeline *)

Section EncoderBounds.

Context {sample : Type}.
Context (below : sample -> bool) (sub : sample -> sample -> sample).
Context (zero : sample).

Lemma compress_signal_bounds (data : list sample) (flags : list bool) :
  length flags = length data ->
  exists packets : list (Packet sample),
    compress_signal below sub zero data flags = Some packets /\
    (count_true flags <= length packets)%nat /\
    (length packets <= length data)%nat.
Proof.
  intros Hlen.
  rewrite (compress_signal_encode_all below sub zero data flags Hlen).
  destruct (encode_all_spec below sub data flags (encoder_init zero) Hlen
              (encoder_init_inv zero)) as (Hinv & Hok & Hsp & Hcov).
  destruct (final_run_spec _ Hinv) as (Hok' & Hsp' & Hfin).
  eexists. split; [reflexivity |].
  set (ps := snd (encode_all below sub (encoder_init zero) data flags)
             ++ final_run (fst (encode_all below sub (encoder_init zero) data flags))).
  assert (Hall : Forall run_length_ok ps) by (apply Forall_app; split; assumption).
  assert (Htotal : total_covered ps = Z.of_nat (length data)).
  { unfold ps. rewrite total_covered_app, Hfin.
    cbn [pending_samples encoder_init in_run] in Hcov. lia. }
  assert (Hcount : count_spike_packets ps = count_true flags).
  { unfold ps. rewrite count_spike_packets_app, Hsp, Hsp'. lia. }
  split.
  - rewrite <- Hcount. unfold count_spike_packets. apply List.filter_length_le.
  - pose proof (length_le_total_covered ps Hall). lia.
Qed.

End EncoderBounds.

Lemma ratio_bounds (n_out n_in : Z) :
  0 <= n_out <= n_in -> 0 < n_in ->
  (0 <= Z2Qc n_out / Z2Qc n_in * Z2Qc 100)%Qc /\
  (Z2Qc n_out / Z2Qc n_in * Z2Qc 100 <= Z2Qc 100)%Qc.
Proof.
  intros Hout Hin.
  assert (Hnz : Z2Qc n_in <> 0%Qc).
  { intros H. apply (Z2Qc_inj _ 0) in H. lia. }
  assert (Hinv : (0 <= / Z2Qc n_in)%Qc).
  { assert (H : (this (/ Z2Qc n_in)%Qc == / inject_Z n_in)%Q).
    { unfold Qcinv, Q2Qc. cbn [this].
      rewrite Qred_correct, (Z2Qc_this n_in). reflexivity. }
    unfold Qcle. rewrite H. apply Qinv_le_0_compat.
    change 0%Q with (inject_Z 0). rewrite <- Zle_Qle. lia. }
  assert (H100 : (0 <= Z2Qc 100)%Qc) by (apply (Z2Qc_le 0 100); lia).
  assert (Hq0 : (0 <= Z2Qc n_out / Z2Qc n_in)%Qc).
  { unfold Qcdiv. replace 0%Qc with (0 * / Z2Qc n_in)%Qc by ring.
    apply Qcmult_le_compat_r; [apply (Z2Qc_le 0 n_out); lia | exact Hinv]. }
  assert (Hq1 : (Z2Qc n_out / Z2Qc n_in <= 1)%Qc).
  { unfold Qcdiv. rewrite <- (Qcmult_inv_r (Z2Qc n_in) Hnz).
    apply Qcmult_le_compat_r; [apply Z2Qc_le; lia | exact Hinv]. }
  split.
  - replace 0%Qc with (0 * Z2Qc 100)%Qc by ring.
    apply Qcmult_le_compat_r; assumption.
  - replace (Z2Qc 100) with (1 * Z2Qc 100)%Qc at 2 by ring.
    apply Qcmult_le_compat_r; assumption.
Qed.

(** X21.  [process] succeeds on every input: the filtered sequence and
    the flags have one entry per input sample, the statistics are
    consistent (spike count at most packet count at most sample count),
    and the compression ratio lies between 0 and 100 per cent, 0 for the
    empty input. *)
Theorem process_total (input_data : list Qc) :
  exists r : Results,
    process input_data = Some r /\
    length (filtered r) = length input_data /\
    length (spike_flags r) = length input_data /\
    input_samples (stats r) = Z.of_nat (length input_data) /\
    output_packets (stats r) = Z.of_nat (length (compressed r)) /\
    0 <= spike_count (stats r) <= output_packets (stats r) /\
    output_packets (stats r) <= input_samples (stats r) /\
    (0 <= compression_ratio (stats r))%Qc /\
    (compression_ratio (stats r) <= Z2Qc 100)%Qc /\
    (input_data = [] -> compression_ratio (stats r) = 0%Qc).
Proof.
  unfold process, compress_signal_float, detect_spikes_float.
  pose proof (length_filter_signal input_data) as Hf.
  pose proof (length_detect_spikes exceeds_spike (filter_signal input_data)) as Hd.
  destruct (compress_signal_bounds below_rle Qcminus 0%Qc
              (filter_signal input_data)
              (detect_spikes exceeds_spike (filter_signal input_data)) Hd)
    as (packets & Hsome & Hlo & Hhi).
  rewrite Hsome. eexists. split; [reflexivity |].
  cbn [filtered spike_flags compressed stats input_samples output_packets
       spike_count compression_ratio].
  rewrite Hf in Hhi.
  split; [exact Hf |]. split; [rewrite Hd; exact Hf |].
  split; [reflexivity |]. split; [reflexivity |].
  split; [lia |]. split; [lia |].
  destruct (Z.ltb_spec 0 (Z.of_nat (length input_data))) as [Hpos | Hzero].
  - destruct (ratio_bounds (Z.of_nat (length packets))
                (Z.of_nat (length input_data)) ltac:(lia) Hpos) as [H0 H100].
    split; [exact H0 |]. split; [exact H100 |].
    intros ->. cbn in Hpos. lia.
  - split; [apply Qcle_alt; discriminate |].
    split; [apply Qcle_alt; discriminate | reflexivity].
Qed.

Lemma process_total_witness :
  exists r : Results, process [] = Some r /\ compression_ratio (stats r) = 0%Qc.
Proof.
  destruct (process_total []) as (r & Hr & _ & _ & _ & _ & _ & _ & _ & _ & H0).
  exists r. split; [exact Hr | exact (H0 eq_refl)].
Defined.
